(** * three2six: version windows, pass selection, checkers and the
      unpacking-generalizations fixer

    A shallow embedding of [three2six/fixers.py], [three2six/checkers.py]
    and [three2six/transpile.py].  Python objects are modelled as values:
    the [ast] node classes as inductive types, exceptions as an error
    result, the fixer instance's two sets as explicit state, and the one
    place where the code relies on object identity (the chain values of
    [expand_starstararg_g12n]) as a store addressed by index. *)

From Stdlib Require Import ZArith String Ascii List Lia Bool.
From stdpp Require Import base option list strings gmap.

Open Scope string_scope.
Open Scope list_scope.

(** ** Exceptions *)

Inductive exn : Type :=
| CheckError (msg : string)
| FixerError (msg : string)
| AssertionError
| TypeError (msg : string)
| RuntimeError (msg : string)
| KeyError (key : string)
| AttributeError (name : string)
| Exception (msg : string).

Inductive result (A : Type) : Type :=
| Ok (a : A)
| Raise (e : exn).
Arguments Ok {A} a.
Arguments Raise {A} e.

Definition result_bind {A B} (r : result A) (k : A -> result B) : result B :=
  match r with
  | Ok a => k a
  | Raise e => Raise e
  end.

(** ** The syntax tree ([ast]) *)

Inductive expr_context : Type := Load | Store | Del | Param.

Inductive operator : Type := Add | Sub | Mult | Div | Mod.

Inductive constant : Type := PyNone | PyTrue | PyFalse.

(** Expression nodes.  [ctx] of the three containers is optional because
    the fixer builds [ast.List(elts=...)] and the like without it. *)
#[warnings="-register-all"]
Inductive expr : Type :=
| BinOp (left : expr) (op : operator) (right : expr)
| Dict (keys : list (option expr)) (values : list expr)
| Set_ (elts : list expr)
| Await (value : expr)
| Call (func : expr) (args : list expr) (keywords : list keyword)
| Num (n : Z)
| Str (s : string)
| Bytes (s : string)
| NameConstant (value : constant)
| Attribute (value : expr) (attr : string) (ctx : expr_context)
| Starred (value : expr) (ctx : expr_context)
| Name (id : string) (ctx : expr_context)
| List_ (elts : list expr) (ctx : option expr_context)
| Tuple (elts : list expr) (ctx : option expr_context)
with keyword : Type :=
| Keyword (arg : option string) (value : expr).

Record alias : Type := Alias { alias_name : string; alias_asname : option string }.

#[warnings="-register-all"]
Record arg : Type := Arg { arg_arg : string; arg_annotation : option expr }.

#[warnings="-register-all"]
Record arguments : Type := Arguments {
  arguments_args : list arg;
  arguments_vararg : option arg;
  arguments_kwonlyargs : list arg;
  arguments_kw_defaults : list (option expr);
  arguments_kwarg : option arg;
  arguments_defaults : list expr
}.

#[warnings="-register-all"]
Inductive stmt : Type :=
| FunctionDef (name : string) (args : arguments) (body : list stmt)
    (decorator_list : list expr) (returns : option expr)
| AsyncFunctionDef (name : string) (args : arguments) (body : list stmt)
    (decorator_list : list expr) (returns : option expr)
| Return (value : option expr)
| Assign (targets : list expr) (value : expr)
| While (test : expr) (body : list stmt) (orelse : list stmt)
| If (test : expr) (body : list stmt) (orelse : list stmt)
| Import (names : list alias)
| ImportFrom (module : option string) (names : list alias) (level : option Z)
| Expr (value : expr)
| Pass.

Record Module : Type := Mod_ { mod_body : list stmt }.

Definition kw_arg (k : keyword) : option string :=
  match k with Keyword a _ => a end.
Definition kw_value (k : keyword) : expr :=
  match k with Keyword _ v => v end.

(** ** fixers.py: node classes *)

(** [ContainerNodes = (ast.List, ast.Set, ast.Tuple)] *)
Definition ContainerNodes (n : expr) : bool :=
  match n with List_ _ _ | Set_ _ | Tuple _ _ => true | _ => false end.

(** [LeafNodes], restricted to expressions: the operator and context
    classes of the tuple are not expressions and are skipped by the walk
    through their field type. *)
Definition LeafNodes (n : expr) : bool :=
  match n with
  | Num _ | Str _ | Bytes _ | NameConstant _ | Name _ _ => true
  | _ => false
  end.

(** [ArgUnpackNodes = (ast.Call, ast.List, ast.Tuple, ast.Set)] *)
Definition ArgUnpackNodes (n : expr) : bool :=
  match n with Call _ _ _ | List_ _ _ | Tuple _ _ | Set_ _ => true | _ => false end.

(** [KwArgUnpackNodes = (ast.Call, ast.Dict)] *)
Definition KwArgUnpackNodes (n : expr) : bool :=
  match n with Call _ _ _ | Dict _ _ => true | _ => false end.

Definition is_Starred (n : expr) : bool :=
  match n with Starred _ _ => true | _ => false end.
Definition is_Dict (n : expr) : bool :=
  match n with Dict _ _ => true | _ => false end.
Definition is_Call (n : expr) : bool :=
  match n with Call _ _ _ => true | _ => false end.

(** ** fixers.py: VersionInfo and FixerBase *)

Module Fixers.

(** Versions are Python [str] values; [<=] on them is the lexicographic
    comparison of [str]. *)
Record VersionInfo : Type := mkVersionInfo {
  apply_since : string;
  apply_until : string;
  works_since : string;
  works_until : option string
}.

(** [VersionInfo.__init__] *)
Definition VersionInfo_init (apply_since apply_until : string)
    (works_since works_until : option string) : VersionInfo :=
  {| apply_since := apply_since;
     apply_until := apply_until;
     works_since := match works_since with
                    | None => apply_since
                    | Some w => w
                    end;
     works_until := works_until |}.

(** [FixerBase.is_required_for] *)
Definition is_required_for (nfo : VersionInfo) (version : string) : bool :=
  String.leb (apply_since nfo) version && String.leb version (apply_until nfo).

(** [FixerBase.is_compatible_with] *)
Definition is_compatible_with (nfo : VersionInfo) (version : string) : bool :=
  String.leb (works_since nfo) version &&
  match works_until nfo with
  | None => true
  | Some u => String.leb version u
  end.

(** [FixerBase.is_applicable_to] *)
Definition is_applicable_to (nfo : VersionInfo) (src_version tgt_version : string) : bool :=
  is_compatible_with nfo src_version && is_required_for nfo tgt_version.

End Fixers.

(** ** fixers.py: the fixer instance and its monad *)

(** [common.ImportDecl(module_name, import_name)] *)
Definition ImportDecl : Type := string * option string.

(** The two sets created by [FixerBase.__init__]. *)
Record FixerBase : Type := mkFixerBase {
  required_imports : gset ImportDecl;
  module_declarations : gset string
}.

Definition FixerBase_init : FixerBase :=
  {| required_imports := ∅; module_declarations := ∅ |}.

(** A method of a fixer: reads and updates [self], returns or raises. *)
Definition M (A : Type) : Type := FixerBase -> result (A * FixerBase).

Definition ret {A} (a : A) : M A := fun self => Ok (a, self).
Definition raise {A} (e : exn) : M A := fun _ => Raise e.
Definition bind {A B} (m : M A) (k : A -> M B) : M B :=
  fun self =>
    match m self with
    | Ok (a, self') => k a self'
    | Raise e => Raise e
    end.
Definition lift {A} (r : result A) : M A :=
  fun self => match r with Ok a => Ok (a, self) | Raise e => Raise e end.

Notation "'let*' x ':=' m 'in' k" := (bind m (fun x => k))
  (at level 10, x name, m at level 100, k at level 200).

(** A [for] loop that builds a list, one monadic call per element. *)
Definition mapM {A B} (f : A -> M B) : list A -> M (list B) :=
  fix go (l : list A) : M (list B) :=
    match l with
    | [] => ret []
    | x :: rest => let* y := f x in let* ys := go rest in ret (y :: ys)
    end.

(** [self.required_imports.add(decl)] *)
Definition add_required_import (decl : ImportDecl) : M unit :=
  fun self =>
    Ok (tt, {| required_imports := {[ decl ]} ∪ required_imports self;
               module_declarations := module_declarations self |}).

(** ** fixers.py: UnpackingGeneralizationsFixer *)

(** [is_dict_call] *)
Definition is_dict_call (node : expr) : bool :=
  match node with
  | Call (Name id _) _ _ => String.eqb id "dict"
  | _ => false
  end.

(** The loop shared by the two detectors: [flag] is the variable
    [has_starred_arg] (or [has_kwstarred_arg]), which every round
    overwrites with the test of the current element. *)
Fixpoint g12n_loop {A} (is_star : A -> bool) (flag : bool) (elts : list A) : bool :=
  match elts with
  | [] => false
  | x :: rest => if flag then true else g12n_loop is_star (is_star x) rest
  end.

(** [_has_stararg_g12n] *)
Definition _has_stararg_g12n (node : expr) : result bool :=
  match node with
  | Call _ args _ => Ok (g12n_loop is_Starred false args)
  | List_ elts _ | Tuple elts _ | Set_ elts => Ok (g12n_loop is_Starred false elts)
  | _ => Raise (TypeError "Unexpected node")
  end.

Definition is_None {A} (o : option A) : bool :=
  match o with None => true | Some _ => false end.

(** [_has_starstarargs_g12n] *)
Definition _has_starstarargs_g12n (node : expr) : result bool :=
  match node with
  | Call _ _ keywords => Ok (g12n_loop (fun kw => is_None (kw_arg kw)) false keywords)
  | Dict keys _ => Ok (g12n_loop is_None false keys)
  | _ => Raise (TypeError "Unexpected node")
  end.

(** [_node_with_elts]: a call is updated in place, a container is built
    anew (without [ctx]). *)
Definition _node_with_elts (node : expr) (new_elts : list expr) : result expr :=
  match node with
  | Call func _ keywords => Ok (Call func new_elts keywords)
  | List_ _ _ => Ok (List_ new_elts None)
  | Set_ _ => Ok (Set_ new_elts)
  | Tuple _ _ => Ok (Tuple new_elts None)
  | _ => Raise (TypeError "Unexpected node type")
  end.

(** [_node_with_binop] *)
Definition _node_with_binop (node : expr) (binop : expr) : result expr :=
  match node with
  | Call func _ keywords => Ok (Call func [Starred binop Load] keywords)
  | List_ _ _ => Ok binop
  | Set_ _ => Ok (Call (Name "set" Load) [binop] [])
  | Tuple _ _ => Ok (Call (Name "tuple" Load) [binop] [])
  | _ => Raise (TypeError "Unexpected node type")
  end.

(** [operands[-1] = x] on a non-empty list. *)
Definition set_last {A} (l : list A) (x : A) : list A :=
  <[ pred (length l) := x ]> l.

Definition container_elts (val : expr) : list expr :=
  match val with
  | List_ elts _ | Set_ elts | Tuple elts _ => elts
  | _ => []
  end.

(** One round of the [for elt in elts] loop of [expand_stararg_g12n].
    The tail list is a node the function built itself, so appending to
    it is a functional update of the last operand. *)
Definition stararg_step (operands : list expr) (elt : expr) : result (list expr) :=
  match last operands with
  | Some (List_ tail_elts tail_ctx) =>
      match elt with
      | Starred val _ =>
          if ContainerNodes val then
            Ok (set_last operands (List_ (tail_elts ++ container_elts val) tail_ctx))
          else
            let new_val_node := Call (Name "list" Load) [val] [] in
            let operands' :=
              if Nat.eqb (length tail_elts) 0
              then set_last operands new_val_node
              else operands ++ [new_val_node] in
            Ok (operands' ++ [List_ [] None])
      | _ => Ok (set_last operands (List_ (tail_elts ++ [elt]) tail_ctx))
      end
  | _ => Raise AssertionError
  end.

Fixpoint stararg_loop (operands : list expr) (elts : list expr) : result (list expr) :=
  match elts with
  | [] => Ok operands
  | elt :: rest =>
      result_bind (stararg_step operands elt) (fun operands' => stararg_loop operands' rest)
  end.

(** The left fold [binop = BinOp(left=binop, op=Add(), right=operand)]. *)
Definition fold_binop (first : expr) (operands : list expr) : expr :=
  fold_left (fun binop operand => BinOp binop Add operand) operands first.

(** [expand_stararg_g12n] *)
Definition expand_stararg_g12n (node : expr) : result expr :=
  result_bind
    (match node with
     | Call _ args _ => Ok args
     | List_ elts _ | Set_ elts | Tuple elts _ => Ok elts
     | _ => Raise (TypeError "Unexpected node")
     end)
    (fun elts =>
  result_bind (stararg_loop [List_ [] None] elts) (fun operands =>
  result_bind
    (match last operands with
     | Some (List_ tail_elts _) =>
         Ok (if Nat.eqb (length tail_elts) 0 then removelast operands else operands)
     | _ => Raise AssertionError
     end)
    (fun operands =>
  match operands with
  | [tail_list] =>
      match tail_list with
      | List_ tail_elts _ => _node_with_elts node tail_elts
      | _ => Raise AssertionError
      end
  | o0 :: o1 :: others => _node_with_binop node (fold_binop (BinOp o0 Add o1) others)
  | [] => Raise (RuntimeError "This should not happen")
  end))).

(** The chain values of a node: a pair becomes a one-entry dict, a spread
    its operand. *)
Definition chain_values_of (node : expr) : result (list expr) :=
  match node with
  | Dict keys values =>
      Ok (map (fun kv : option expr * expr =>
                 match kv.1 with
                 | None => kv.2
                 | Some key => Dict [Some key] [kv.2]
                 end) (zip keys values))
  | Call _ _ keywords =>
      Ok (map (fun kw =>
                 match kw_arg kw with
                 | None => kw_value kw
                 | Some a => Dict [Some (Str a)] [kw_value kw]
                 end) keywords)
  | _ => Raise (TypeError "Unexpected node type")
  end.

(** The collapse loop.  [collapsed_chain_values] holds the very objects of
    [chain_values], and [prev_chain_val.keys.append] changes such an
    object in place: [chain_values] is the store, [collapsed] the indices
    of the objects referenced by [collapsed_chain_values]. *)
Definition collapse_step (st : list expr * list nat) (i : nat) : list expr * list nat :=
  let '(chain_values, collapsed) := st in
  match chain_values !! i with
  | None => st
  | Some chain_val =>
      match last collapsed with
      | None => (chain_values, collapsed ++ [i])
      | Some p =>
          match chain_val, chain_values !! p with
          | Dict ckeys cvalues, Some (Dict pkeys pvalues) =>
              let kvs := zip ckeys cvalues in
              (<[ p := Dict (pkeys ++ kvs.*1) (pvalues ++ kvs.*2) ]> chain_values,
               collapsed)
          | _, _ => (chain_values, collapsed ++ [i])
          end
      end
  end.

Definition collapse (chain_values : list expr) : list expr * list nat :=
  fold_left collapse_step (seq 0 (length chain_values)) (chain_values, []).

(** The objects of [collapsed_chain_values], read from the store. *)
Definition deref (chain_values : list expr) (collapsed : list nat) : list expr :=
  omap (fun i => chain_values !! i) collapsed.

Definition items_call (val : expr) : expr :=
  Call (Attribute val "items" Load) [] [].

(** [expand_starstararg_g12n] *)
Definition expand_starstararg_g12n (node : expr) : M expr :=
  let* chain_values := lift (chain_values_of node) in
  let '(chain_values, collapsed) := collapse chain_values in
  match deref chain_values collapsed with
  | [] => raise AssertionError
  | [collapsed_chain_value] =>
      match node with
      | Dict _ _ => ret collapsed_chain_value
      | Call node_func node_args _ =>
          if is_dict_call node then ret collapsed_chain_value
          else ret (Call node_func node_args [Keyword None collapsed_chain_value])
      | _ => raise (TypeError "Unexpected node type")
      end
  | _ :: _ :: _ =>
      match node with
      | Call node_func node_args _ =>
          let* _ := add_required_import ("itertools", None) in
          let chain_args := map items_call chain_values in
          let value_node :=
            Call (Name "dict" Load)
                 [Call (Attribute (Name "itertools" Load) "chain" Load) chain_args []]
                 [] in
          ret (Call node_func node_args [Keyword None value_node])
      | _ => raise AssertionError
      end
  end.

(** [visit_expr].  The second test reads [node] after the first branch
    has run; a call is changed in place by that branch, so for a call the
    test sees [new_node]. *)
Definition visit_expr (node : expr) : M expr :=
  let* new_node :=
    (if ArgUnpackNodes node then
       (let* has := lift (_has_stararg_g12n node) in
        if has then lift (expand_stararg_g12n node) else ret node)
     else ret node) in
  if KwArgUnpackNodes node then
    (let* has := lift (_has_starstarargs_g12n (if is_Call node then new_node else node)) in
     if has then expand_starstararg_g12n new_node else ret new_node)
  else ret new_node.

(** The end of [walk_node]: [dict( **d )] with [d] a dict display or a
    [dict(...)] call is replaced by [d]. *)
Definition single_dict_splat (new_expr_node : expr) : expr :=
  match new_expr_node with
  | Call _ args keywords =>
      let is_single_dict_splat :=
        is_dict_call new_expr_node && Nat.eqb (length args) 0 &&
        Nat.eqb (length keywords) 1 &&
        match keywords with k :: _ => is_None (kw_arg k) | [] => false end in
      match keywords with
      | keyword_node :: _ =>
          if is_single_dict_splat &&
             (is_dict_call (kw_value keyword_node) || is_Dict (kw_value keyword_node))
          then kw_value keyword_node
          else new_expr_node
      | [] => new_expr_node
      end
  | _ => new_expr_node
  end.

(** [walk_node] on expressions and keywords.  [iter_walkable_fields]
    leaves out contexts, operators and leaf nodes; a field holding a node
    is walked and stored back, a field holding a list is walked element
    by element (leaves and non-nodes are kept).  The arguments [parent] and
    [parent_field_name] are only passed along in the source and are left
    out. *)
Fixpoint walk_node (node : expr) : M expr :=
  let walk_sub (sub_node : expr) : M expr :=
    if LeafNodes sub_node then ret sub_node else walk_node sub_node in
  if LeafNodes node then ret node else
  let* node' :=
    match node with
    | BinOp lhs op rhs =>
        let* left' := walk_sub lhs in let* right' := walk_sub rhs in
        ret (BinOp left' op right')
    | Dict keys values =>
        let* keys' := mapM (fun k : option expr =>
                         match k with
                         | None => ret None
                         | Some key => let* key' := walk_sub key in ret (Some key')
                         end) keys in
        let* values' := mapM walk_sub values in
        ret (Dict keys' values')
    | Set_ elts => let* elts' := mapM walk_sub elts in ret (Set_ elts')
    | Await value => let* value' := walk_sub value in ret (Await value')
    | Call func args keywords =>
        let* func' := walk_sub func in
        let* args' := mapM walk_sub args in
        let* keywords' := mapM walk_keyword keywords in
        ret (Call func' args' keywords')
    | Attribute value attr ctx =>
        let* value' := walk_sub value in ret (Attribute value' attr ctx)
    | Starred value ctx => let* value' := walk_sub value in ret (Starred value' ctx)
    | List_ elts ctx => let* elts' := mapM walk_sub elts in ret (List_ elts' ctx)
    | Tuple elts ctx => let* elts' := mapM walk_sub elts in ret (Tuple elts' ctx)
    | Num _ | Str _ | Bytes _ | NameConstant _ | Name _ _ => ret node
    end in
  let* new_expr_node := visit_expr node' in
  ret (single_dict_splat new_expr_node)
with walk_keyword (node : keyword) : M keyword :=
  match node with
  | Keyword arg value =>
      let* value' := (if LeafNodes value then ret value else walk_node value) in
      ret (Keyword arg value')
  end.

(** A field or list element as the walks treat it. *)
Definition walk_sub (sub_node : expr) : M expr :=
  if LeafNodes sub_node then ret sub_node else walk_node sub_node.

Definition walk_opt (field_node : option expr) : M (option expr) :=
  match field_node with
  | None => ret None
  | Some e => let* e' := walk_sub e in ret (Some e')
  end.

(** [walk_stmt], with [walk_stmtlist] as its loop over a statement list.
    A field of type [arguments] is left out by [iter_walkable_fields];
    strings, numbers and [None] fall to the final [continue]; a list of
    [alias] nodes is walked by [walk_node], which finds no field to walk
    in them. *)
Fixpoint walk_stmt (node : stmt) : M stmt :=
  match node with
  | FunctionDef name args body decorator_list returns =>
      let* body' := mapM walk_stmt body in
      let* decorator_list' := mapM walk_sub decorator_list in
      let* returns' := walk_opt returns in
      ret (FunctionDef name args body' decorator_list' returns')
  | AsyncFunctionDef name args body decorator_list returns =>
      let* body' := mapM walk_stmt body in
      let* decorator_list' := mapM walk_sub decorator_list in
      let* returns' := walk_opt returns in
      ret (AsyncFunctionDef name args body' decorator_list' returns')
  | Return value => let* value' := walk_opt value in ret (Return value')
  | Assign targets value =>
      let* targets' := mapM walk_sub targets in
      let* value' := walk_sub value in
      ret (Assign targets' value')
  | While test body orelse =>
      let* test' := walk_sub test in
      let* body' := mapM walk_stmt body in
      let* orelse' := mapM walk_stmt orelse in
      ret (While test' body' orelse')
  | If test body orelse =>
      let* test' := walk_sub test in
      let* body' := mapM walk_stmt body in
      let* orelse' := mapM walk_stmt orelse in
      ret (If test' body' orelse')
  | Import names => ret (Import names)
  | ImportFrom module names level => ret (ImportFrom module names level)
  | Expr value => let* value' := walk_sub value in ret (Expr value')
  | Pass => ret Pass
  end.

(** [walk_stmtlist] *)
Definition walk_stmtlist (stmtlist : list stmt) : M (list stmt) :=
  mapM walk_stmt stmtlist.

(** [UnpackingGeneralizationsFixer.__call__] *)
Definition UnpackingGeneralizationsFixer_call (tree : Module) : M Module :=
  let* body' := walk_stmtlist (mod_body tree) in
  ret (Mod_ body').

(** ** ast.walk *)

(** Every object [ast.walk] can yield. *)
Inductive node : Type :=
| NMod (m : Module)
| NStmt (s : stmt)
| NExpr (e : expr)
| NKeyword (k : keyword)
| NAlias (a : alias)
| NArguments (a : arguments)
| NArg (a : arg)
| NCtx (c : expr_context)
| NOp (o : operator).

Definition opt_nodes {A} (f : A -> node) (o : option A) : list node :=
  match o with Some a => [f a] | None => [] end.

(** [ast.iter_child_nodes]: the fields in [_fields] order; a field that
    is a node is yielded, a field that is a list yields its nodes (a
    [None] key of a dict display is not a node). *)
Definition iter_child_nodes (n : node) : list node :=
  match n with
  | NMod m => map NStmt (mod_body m)
  | NStmt s =>
      match s with
      | FunctionDef _ args body decorator_list returns
      | AsyncFunctionDef _ args body decorator_list returns =>
          [NArguments args] ++ map NStmt body ++ map NExpr decorator_list
            ++ opt_nodes NExpr returns
      | Return value => opt_nodes NExpr value
      | Assign targets value => map NExpr targets ++ [NExpr value]
      | While test body orelse | If test body orelse =>
          [NExpr test] ++ map NStmt body ++ map NStmt orelse
      | Import names => map NAlias names
      | ImportFrom _ names _ => map NAlias names
      | Expr value => [NExpr value]
      | Pass => []
      end
  | NExpr e =>
      match e with
      | BinOp lhs op rhs => [NExpr lhs; NOp op; NExpr rhs]
      | Dict keys values => map NExpr (omap id keys) ++ map NExpr values
      | Set_ elts => map NExpr elts
      | Await value => [NExpr value]
      | Call func args keywords =>
          [NExpr func] ++ map NExpr args ++ map NKeyword keywords
      | Num _ | Str _ | Bytes _ | NameConstant _ => []
      | Attribute value _ ctx => [NExpr value; NCtx ctx]
      | Starred value ctx => [NExpr value; NCtx ctx]
      | Name _ ctx => [NCtx ctx]
      | List_ elts ctx | Tuple elts ctx => map NExpr elts ++ opt_nodes NCtx ctx
      end
  | NKeyword k => [NExpr (kw_value k)]
  | NAlias _ => []
  | NArguments a =>
      map NArg (arguments_args a) ++ opt_nodes NArg (arguments_vararg a)
        ++ map NArg (arguments_kwonlyargs a)
        ++ map NExpr (omap id (arguments_kw_defaults a))
        ++ opt_nodes NArg (arguments_kwarg a)
        ++ map NExpr (arguments_defaults a)
  | NArg a => opt_nodes NExpr (arg_annotation a)
  | NCtx _ => []
  | NOp _ => []
  end.

Definition sum_sizes {A} (size : A -> nat) (l : list A) : nat :=
  list_sum (map size l).

Definition opt_size {A} (size : A -> nat) (o : option A) : nat :=
  match o with Some a => size a | None => 0 end.

(** The number of nodes of a tree: what bounds the loop of [ast.walk]. *)
Fixpoint expr_size (e : expr) : nat :=
  match e with
  | BinOp lhs _ rhs => 2 + expr_size lhs + expr_size rhs
  | Dict keys values =>
      1 + sum_sizes (opt_size expr_size) keys + sum_sizes expr_size values
  | Set_ elts => 1 + sum_sizes expr_size elts
  | Await value => 1 + expr_size value
  | Call func args keywords =>
      1 + expr_size func + sum_sizes expr_size args + sum_sizes keyword_size keywords
  | Num _ | Str _ | Bytes _ | NameConstant _ => 1
  | Attribute value _ _ => 2 + expr_size value
  | Starred value _ => 2 + expr_size value
  | Name _ _ => 2
  | List_ elts ctx | Tuple elts ctx =>
      1 + sum_sizes expr_size elts + opt_size (fun _ => 1) ctx
  end
with keyword_size (k : keyword) : nat :=
  match k with Keyword _ value => 1 + expr_size value end.

Definition arg_size (a : arg) : nat := 1 + opt_size expr_size (arg_annotation a).

Definition arguments_size (a : arguments) : nat :=
  1 + sum_sizes arg_size (arguments_args a) + opt_size arg_size (arguments_vararg a)
    + sum_sizes arg_size (arguments_kwonlyargs a)
    + sum_sizes (opt_size expr_size) (arguments_kw_defaults a)
    + opt_size arg_size (arguments_kwarg a)
    + sum_sizes expr_size (arguments_defaults a).

Fixpoint stmt_size (s : stmt) : nat :=
  match s with
  | FunctionDef _ args body decorator_list returns
  | AsyncFunctionDef _ args body decorator_list returns =>
      1 + arguments_size args + sum_sizes stmt_size body
        + sum_sizes expr_size decorator_list + opt_size expr_size returns
  | Return value => 1 + opt_size expr_size value
  | Assign targets value => 1 + sum_sizes expr_size targets + expr_size value
  | While test body orelse | If test body orelse =>
      1 + expr_size test + sum_sizes stmt_size body + sum_sizes stmt_size orelse
  | Import names => 1 + length names
  | ImportFrom _ names _ => 1 + length names
  | Expr value => 1 + expr_size value
  | Pass => 1
  end.

Definition node_size (n : node) : nat :=
  match n with
  | NMod m => 1 + sum_sizes stmt_size (mod_body m)
  | NStmt s => stmt_size s
  | NExpr e => expr_size e
  | NKeyword k => keyword_size k
  | NAlias _ => 1
  | NArguments a => arguments_size a
  | NArg a => arg_size a
  | NCtx _ => 1
  | NOp _ => 1
  end.

(** The loop of [ast.walk]: [todo] is the deque; a round pops its left
    end, appends the children of the popped node and yields the node.
    [fuel] bounds the number of rounds. *)
Fixpoint walk_fuel (fuel : nat) (todo : list node) : list node :=
  match fuel, todo with
  | S fuel', n :: rest => n :: walk_fuel fuel' (rest ++ iter_child_nodes n)
  | _, _ => []
  end.

(** [ast.walk(tree)], as the list of the nodes it yields: one round per
    node of the tree. *)
Definition ast_walk (tree : node) : list node :=
  walk_fuel (node_size tree) [tree].

(** A [for] loop whose body may raise. *)
Fixpoint for_each {A} (body : A -> result unit) (l : list A) : result unit :=
  match l with
  | [] => Ok tt
  | x :: rest => result_bind (body x) (fun _ => for_each body rest)
  end.

(** ** Python [str] methods used by the selector and the checkers *)

Definition is_space (c : ascii) : bool :=
  let n := nat_of_ascii c in
  (Nat.leb 9 n && Nat.leb n 13) || (Nat.leb 28 n && Nat.leb n 32).

(** [s.lstrip()] *)
Fixpoint lstrip (s : string) : string :=
  match s with
  | String c rest => if is_space c then lstrip rest else s
  | EmptyString => EmptyString
  end.

(** [s.rstrip()] *)
Fixpoint rstrip (s : string) : string :=
  match s with
  | String c rest =>
      match rstrip rest with
      | EmptyString => if is_space c then EmptyString else String c EmptyString
      | rest' => String c rest'
      end
  | EmptyString => EmptyString
  end.

(** [s.strip()] *)
Definition strip (s : string) : string := rstrip (lstrip s).

(** [s.split(sep)] for a one-character separator. *)
Fixpoint split (sep : ascii) (s : string) : list string :=
  match s with
  | EmptyString => [EmptyString]
  | String c rest =>
      if Ascii.eqb c sep then EmptyString :: split sep rest
      else match split sep rest with
           | head :: tail => String c head :: tail
           | [] => [String c EmptyString]
           end
  end.

Definition lower_char (c : ascii) : ascii :=
  let n := nat_of_ascii c in
  if Nat.leb 65 n && Nat.leb n 90 then ascii_of_nat (n + 32) else c.

(** [s.lower()] on ASCII text: the letters [A] to [Z] become [a] to [z] and
    every other character is kept.  On text with characters outside ASCII
    [str.lower()] does more (it follows the Unicode case mappings), so a
    statement about [lower] is one about the source for ASCII text only,
    see [isascii]. *)
Fixpoint lower (s : string) : string :=
  match s with
  | String c rest => String (lower_char c) (lower rest)
  | EmptyString => EmptyString
  end.

(** [s.isascii()]: every character has a code point below 128. *)
Definition isascii (s : string) : bool :=
  forallb (fun c => Nat.ltb (nat_of_ascii c) 128) (list_ascii_of_string s).

(** [s.replace(c, "")] for a one-character [c]. *)
Fixpoint remove_char (c : ascii) (s : string) : string :=
  match s with
  | String d rest =>
      if Ascii.eqb d c then remove_char c rest else String d (remove_char c rest)
  | EmptyString => EmptyString
  end.

(** [s.endswith(suffix)] *)
Definition endswith (s suffix : string) : bool :=
  Nat.leb (String.length suffix) (String.length s) &&
  String.eqb
    (substring (String.length s - String.length suffix) (String.length suffix) s)
    suffix.

(** [s[:-n]]; with [n = 0] this is [s[:0]], the empty string. *)
Definition drop_last_n (n : nat) (s : string) : string :=
  substring 0 (String.length s - n) (if Nat.eqb n 0 then EmptyString else s).

(** [c in s] for a one-character [c]. *)
Fixpoint char_in (c : ascii) (s : string) : bool :=
  match s with
  | String d rest => Ascii.eqb d c || char_in c rest
  | EmptyString => false
  end.

(** [str(x)] of an optional string: [None] prints as [None]. *)
Definition str_of_opt (o : option string) : string :=
  match o with Some s => s | None => "None" end.

(** ** common.BuildConfig *)

Inductive names_t : Type :=
| NamesStr (s : string)
| NamesList (l : list string).

(** The two keys [transpile_module] reads with [cfg.get(key, "")]. *)
Record BuildConfig : Type := mkBuildConfig {
  cfg_checkers : option names_t;
  cfg_fixers : option names_t
}.

Definition cfg_get (field : option names_t) : names_t :=
  match field with Some v => v | None => NamesStr "" end.

(** ** checkers.py *)

Module Checkers.

Record VersionInfo : Type := mkVersionInfo { prohibited_until : option string }.

(** [CheckerBase.is_prohibited_for] *)
Definition is_prohibited_for (nfo : VersionInfo) (version : string) : bool :=
  match prohibited_until nfo with
  | None => true
  | Some u => String.leb version u
  end.

(** [NoStarImports.__call__] *)
Definition NoStarImports_call (cfg : BuildConfig) (tree : Module) : result unit :=
  for_each
    (fun node =>
       match node with
       | NStmt (ImportFrom module names _) =>
           for_each
             (fun a : alias =>
                if String.eqb (alias_name a) "*"
                then Raise (CheckError
                              ("Prohibited from " +:+ str_of_opt module +:+ " import *."))
                else Ok tt)
             names
       | _ => Ok tt
       end)
    (ast_walk (NMod tree)).

(** The name a node brings into scope, for the two override checkers;
    [None] is their [continue].  [with_plain_alias] tells whether an alias
    without [asname] counts (it does for the builtins checker only). *)
Definition name_in_scope_of (with_plain_alias : bool) (node : node) : option string :=
  match node with
  | NStmt (FunctionDef name _ _ _ _) => Some name
  | NExpr (Name id Store) => Some id
  | NAlias a =>
      match alias_asname a with
      | Some asname =>
          if with_plain_alias then Some asname
          else if String.eqb asname "" then None else Some asname
      | None => if with_plain_alias then Some (alias_name a) else None
      end
  | NArg a => Some (arg_arg a)
  | _ => None
  end.

Definition prohibited_import_overrides : list string := ["itertools"; "six"; "builtins"].

Definition str_in_list (s : string) (l : list string) : bool :=
  existsb (String.eqb s) l.

(** [NoOverriddenStdlibImportsChecker.__call__] *)
Definition NoOverriddenStdlibImportsChecker_call (cfg : BuildConfig) (tree : Module)
  : result unit :=
  for_each
    (fun node =>
       match name_in_scope_of false node with
       | Some name_in_scope =>
           if negb (String.eqb name_in_scope "") &&
              str_in_list name_in_scope prohibited_import_overrides
           then Raise (CheckError
                         ("Prohibited override of import '" +:+ name_in_scope +:+ "'"))
           else Ok tt
       | None => Ok tt
       end)
    (ast_walk (NMod tree)).

(** [NoOverriddenBuiltinsChecker.__call__]; [common.BUILTIN_NAMES] is a
    constant of a module outside this development and is a parameter. *)
Definition NoOverriddenBuiltinsChecker_call (BUILTIN_NAMES : list string)
    (cfg : BuildConfig) (tree : Module) : result unit :=
  for_each
    (fun node =>
       match name_in_scope_of true node with
       | Some name_in_scope =>
           if negb (String.eqb name_in_scope "") &&
              str_in_list name_in_scope BUILTIN_NAMES
           then Raise (CheckError
                         ("Prohibited override of builtin '" +:+ name_in_scope +:+ "'"))
           else Ok tt
       | None => Ok tt
       end)
    (ast_walk (NMod tree)).

(** [NoThreeOnlyImports.__call__] *)
Definition NoThreeOnlyImports_call (cfg : BuildConfig) (tree : Module) : result unit :=
  Ok tt.

Definition PROHIBITED_OPEN_ARGUMENTS : list string :=
  ["encoding"; "errors"; "newline"; "closefd"; "opener"].

(** The message of the source ends with the [repr] of the offending node,
    an object address, which is left out. *)
Definition mode_error : exn :=
  CheckError "Prohibited value for argument 'mode' of builtin.open. Expected ast.Str node".

(** The loop [for kw in node.keywords] of the open checker: the mode seen
    so far is threaded through. *)
Fixpoint open_keywords (mode : string) (keywords : list keyword) : result string :=
  match keywords with
  | [] => Ok mode
  | kw :: rest =>
      match kw_arg kw with
      | Some a =>
          if str_in_list a PROHIBITED_OPEN_ARGUMENTS then
            Raise (CheckError
                     ("Prohibited keyword argument '" +:+ a +:+ "' to builtin.open."))
          else if negb (String.eqb a "mode") then open_keywords mode rest
          else match kw_value kw with
               | Str s => open_keywords s rest
               | _ => Raise mode_error
               end
      | None => open_keywords mode rest
      end
  end.

(** The body of the loop of [NoOpenWithEncodingChecker.__call__] for one
    node of the walk. *)
Definition check_open_node (node : node) : result unit :=
  match node with
  | NExpr (Call (Name id Load) args keywords) =>
      if negb (String.eqb id "open") then Ok tt else
      result_bind
        (match args with
         | _ :: mode_node :: _ =>
             match mode_node with
             | Str s => Ok s
             | _ => Raise mode_error
             end
         | _ => Ok "r"
         end)
        (fun mode =>
      if Nat.ltb 3 (length args) then
        Raise (CheckError "Prohibited positional arguments to builtin.open")
      else
      result_bind (open_keywords mode keywords) (fun mode =>
      if negb (char_in "b"%char mode) then
        Raise (CheckError
                 ("Prohibited value '" +:+ mode +:+ "' for argument 'mode' of builtin.open. "
                  +:+ "Only binary modes are allowed, use io.open as an alternative."))
      else Ok tt))
  | _ => Ok tt
  end.

(** [NoOpenWithEncodingChecker.__call__] *)
Definition NoOpenWithEncodingChecker_call (cfg : BuildConfig) (tree : Module)
  : result unit :=
  for_each check_open_node (ast_walk (NMod tree)).

(** [ASYNC_AWAIT_NODE_TYPES] is the tuple [(AsyncFor, AsyncWith,
    AsyncFunctionDef, Await)].  The statements of this development have no
    [async for] and no [async with] (nor their plain forms), so of the four
    classes only the last two have nodes here: this is the test of the
    source on the trees of [Module], and says nothing of a tree that holds
    one of the two other statements. *)
Definition ASYNC_AWAIT_NODE_TYPES (node : node) : bool :=
  match node with
  | NStmt (AsyncFunctionDef _ _ _ _ _) => true
  | NExpr (Await _) => true
  | _ => false
  end.

(** [NoAsyncAwait.__call__] *)
Definition NoAsyncAwait_call (cfg : BuildConfig) (tree : Module) : result unit :=
  for_each
    (fun node =>
       if ASYNC_AWAIT_NODE_TYPES node
       then Raise (CheckError "Prohibited use of async/await")
       else Ok tt)
    (ast_walk (NMod tree)).

End Checkers.

(** ** transpile.py: the pass selector *)

(** An attribute of a module as [iter_fuzzy_selected_classes] sees it: a
    class, with its name, the names of the classes it derives from (itself
    included) and the instance its constructor returns, or anything else. *)
Inductive attr (T : Type) : Type :=
| Class (name : string) (ancestors : list string) (new : T)
| Other.
Arguments Class {T} name ancestors new.
Arguments Other {T}.

(** A module: its attributes in the order of [dir(module)]. *)
Definition module_t (T : Type) : Type := list (string * attr T).

(** A finite generator: what it yields, then how it ends ([None] is
    exhaustion, [Some e] an exception raised when the consumer asks for
    the next element). *)
Definition generator (T : Type) : Type := (list T * option exn)%type.

(** A [dict] keeps its keys in insertion order; storing under a key that is
    present replaces the value and keeps the key's place. *)
Fixpoint dict_set {V} (d : list (string * V)) (key : string) (v : V) : list (string * V) :=
  match d with
  | [] => [(key, v)]
  | (k, w) :: rest =>
      if String.eqb k key then (k, v) :: rest else (k, w) :: dict_set rest key v
  end.

Fixpoint dict_get {V} (d : list (string * V)) (key : string) : option V :=
  match d with
  | [] => None
  | (k, w) :: rest => if String.eqb k key then Some w else dict_get rest key
  end.

(** [normalize_name], the local function; [optional_suffix] is its free
    variable. *)
Definition normalize_name (optional_suffix : string) (name : string) : string :=
  let name := remove_char "-"%char (remove_char "_"%char (lower name)) in
  if endswith name (lower optional_suffix)
  then drop_last_n (String.length optional_suffix) name
  else name.

(** The names after [split] and the filter [name.strip() for name in names
    if name.strip()]. *)
Definition selector_names (names : names_t) : list string :=
  let names := match names with
               | NamesStr s => split ","%char s
               | NamesList l => l
               end in
  map strip (List.filter (fun name => negb (String.eqb (strip name) "")) names).

(** [available_classes]: the classes of the module that derive from
    [clazz] and whose attribute name does not end in the name of [clazz],
    keyed by their normalized attribute name. *)
Definition available_classes {T} (module : module_t T) (clazz_name : string)
  : list (string * (string * T)) :=
  let optional_suffix := drop_last_n 4 clazz_name in
  fold_left
    (fun d (entry : string * attr T) =>
       match entry.2 with
       | Class name ancestors new =>
           if negb (endswith entry.1 clazz_name) && Checkers.str_in_list clazz_name ancestors
           then dict_set d (normalize_name optional_suffix entry.1) (name, new)
           else d
       | Other => d
       end)
    module [].

(** The loop [for name in selected_names: yield available_classes[name]()]:
    a missing name raises [KeyError] when the loop reaches it. *)
Fixpoint yield_selected {V} (available : list (string * V)) (selected_names : list string)
  : generator V :=
  match selected_names with
  | [] => ([], None)
  | name :: rest =>
      match dict_get available name with
      | None => ([], Some (KeyError name))
      | Some inst =>
          let '(items, end_) := yield_selected available rest in
          (inst :: items, end_)
      end
  end.

(** [iter_fuzzy_selected_classes].  [clazz] is given by its name; an
    instance is yielded together with the name of its class. *)
Definition iter_fuzzy_selected_classes {T} (names : names_t) (module : module_t T)
    (clazz_name : string) : generator (string * T) :=
  let names := selector_names names in
  if negb (endswith clazz_name "Base") then ([], Some AssertionError) else
  match dict_get module clazz_name with
  | None => ([], Some (AttributeError clazz_name))
  | Some Other => ([], Some AssertionError)
  | Some (Class name _ _) =>
      if negb (String.eqb name clazz_name) then ([], Some AssertionError) else
      let optional_suffix := drop_last_n 4 clazz_name in
      let available := available_classes module clazz_name in
      let selected_names :=
        if existsb (fun name => negb (String.eqb name "")) names
        then map (normalize_name optional_suffix) names
        else map fst available in
      if Nat.eqb (length selected_names) 0 then ([], Some AssertionError)
      else yield_selected available selected_names
  end.

(** ** transpile.py: the pipeline *)

Definition checker_t : Type := BuildConfig -> Module -> result unit.
Definition fixer_t : Type := BuildConfig -> Module -> result (option Module).

(** What a run did to the tree, in order: not a value of the program, a
    record of the calls [checker(cfg, module_tree)] and
    [fixer(cfg, module_tree)] it made, by class name. *)
Inductive event : Type :=
| Checked (class_name : string)
| Fixed (class_name : string).

(** [for checker in ...: checker(cfg, module_tree)] *)
Fixpoint run_checkers (cfg : BuildConfig) (tree : Module)
    (items : list (string * checker_t)) (end_ : option exn)
  : list event * result unit :=
  match items with
  | [] => ([], match end_ with None => Ok tt | Some e => Raise e end)
  | (name, checker) :: rest =>
      match checker cfg tree with
      | Raise e => ([Checked name], Raise e)
      | Ok _ =>
          let '(trace, r) := run_checkers cfg tree rest end_ in
          (Checked name :: trace, r)
      end
  end.

(** [for fixer in ...: ...; module_tree = maybe_fixed_module] *)
Fixpoint run_fixers (cfg : BuildConfig) (module_tree : Module)
    (items : list (string * fixer_t)) (end_ : option exn)
  : list event * result Module :=
  match items with
  | [] => ([], match end_ with None => Ok module_tree | Some e => Raise e end)
  | (name, fixer) :: rest =>
      match fixer cfg module_tree with
      | Raise e => ([Fixed name], Raise e)
      | Ok None => ([Fixed name], Raise (Exception ("Error running fixer " +:+ name)))
      | Ok (Some maybe_fixed_module) =>
          let '(trace, r) := run_fixers cfg maybe_fixed_module rest end_ in
          (Fixed name :: trace, r)
      end
  end.

(** [transpile_module], between [ast.parse] and the rendering of the
    result: the parsed tree is the input, the final tree the output.  The
    two modules searched for passes are parameters. *)
Definition transpile_module (checkers : module_t checker_t) (fixers : module_t fixer_t)
    (cfg : BuildConfig) (module_tree : Module) : list event * result Module :=
  let checker_names := cfg_get (cfg_checkers cfg) in
  let fixer_names := cfg_get (cfg_fixers cfg) in
  let '(citems, cend) := iter_fuzzy_selected_classes checker_names checkers "CheckerBase" in
  match run_checkers cfg module_tree citems cend with
  | (trace, Raise e) => (trace, Raise e)
  | (trace, Ok _) =>
      let '(fitems, fend) := iter_fuzzy_selected_classes fixer_names fixers "FixerBase" in
      let '(trace', r) := run_fixers cfg module_tree fitems fend in
      (trace ++ trace', r)
  end.

(** The module [checkers], as [dir(checkers)] lists it: the classes and the
    other names (constants, imports, dunder attributes) in code point
    order. *)
Definition checkers_module (BUILTIN_NAMES : list string) : module_t checker_t :=
  let checker name call := (name, Class name [name; "CheckerBase"; "object"] call) in
  [ ("ASYNC_AWAIT_NODE_TYPES", Other);
    ("CheckerBase",
     Class "CheckerBase" ["CheckerBase"; "object"]
       (fun _ _ => Raise (Exception "NotImplementedError")));
    ("MODULE_BACKPORTS", Other);
    checker "NoAsyncAwait" Checkers.NoAsyncAwait_call;
    checker "NoOpenWithEncodingChecker" Checkers.NoOpenWithEncodingChecker_call;
    checker "NoOverriddenBuiltinsChecker"
      (Checkers.NoOverriddenBuiltinsChecker_call BUILTIN_NAMES);
    checker "NoOverriddenStdlibImportsChecker"
      Checkers.NoOverriddenStdlibImportsChecker_call;
    checker "NoStarImports" Checkers.NoStarImports_call;
    checker "NoThreeOnlyImports" Checkers.NoThreeOnlyImports_call;
    ("PROHIBITED_OPEN_ARGUMENTS", Other);
    ("VersionInfo", Class "VersionInfo" ["VersionInfo"; "object"]
                      (fun _ _ => Raise (TypeError "not callable")));
    ("VisitorCheckerBase",
     Class "VisitorCheckerBase" ["VisitorCheckerBase"; "CheckerBase"; "NodeVisitor"; "object"]
       (fun _ _ => Raise (Exception "NotImplementedError")));
    ("__builtins__", Other); ("__cached__", Other); ("__doc__", Other);
    ("__file__", Other); ("__loader__", Other); ("__name__", Other);
    ("__package__", Other); ("__spec__", Other);
    ("ast", Other); ("common", Other); ("typ", Other) ].

(** The fixer of this development as a pass of the pipeline: a fresh
    instance, called once. *)
Definition UnpackingGeneralizationsFixer : fixer_t :=
  fun cfg tree =>
    match UnpackingGeneralizationsFixer_call tree FixerBase_init with
    | Ok (tree', _) => Ok (Some tree')
    | Raise e => Raise e
    end.

(** ** Orders on versions, runs of the fixer, and the trees of the examples *)

(** The order of the source on versions: [<=] and [<] of [str]. *)
Definition str_le (a b : string) : Prop := String.leb a b = true.
Definition str_lt (a b : string) : Prop := String.ltb a b = true.

(** [XrangeToRangeFixer.version_info] *)
Definition XrangeToRangeFixer_version_info : Fixers.VersionInfo :=
  Fixers.VersionInfo_init "1.0" "2.7" None (Some "3.7").

(** [NamedTupleClassToAssignFixer.version_info] *)
Definition NamedTupleClassToAssignFixer_version_info : Fixers.VersionInfo :=
  Fixers.VersionInfo_init "2.6" "3.4" None None.

(** *** The order of versions in the words of the specification

    The four definitions that follow are written from the specification and
    not from the source, to be compared with [Fixers.is_applicable_to]: a
    version is ordered "lexicographic-numeric per dotted component", and a
    fixer is applicable when the source version is in the works window and
    the target version in the apply window. *)

(** The number a run of decimal digits writes. *)
Fixpoint spec_decimal (acc : N) (digits : string) : N :=
  match digits with
  | String c rest => spec_decimal (10 * acc + (N_of_ascii c - 48)) rest
  | EmptyString => acc
  end.

(** The components of a version: [3.10] has the components 3 and 10. *)
Definition spec_version_components (version : string) : list N :=
  map (spec_decimal 0) (split "."%char version).

(** The lexicographic order on lists of components. *)
Fixpoint spec_components_le (a b : list N) : bool :=
  match a, b with
  | [], _ => true
  | _ :: _, [] => false
  | x :: a', y :: b' =>
      if N.ltb x y then true
      else if N.eqb x y then spec_components_le a' b'
      else false
  end.

Definition spec_version_le (a b : string) : bool :=
  spec_components_le (spec_version_components a) (spec_version_components b).

(** [is_applicable(window, source, target)] of the specification. *)
Definition spec_is_applicable (nfo : Fixers.VersionInfo) (source target : string) : bool :=
  (spec_version_le (Fixers.works_since nfo) source &&
   match Fixers.works_until nfo with
   | Some works_until => spec_version_le source works_until
   | None => true
   end) &&
  (spec_version_le (Fixers.apply_since nfo) target &&
   spec_version_le target (Fixers.apply_until nfo)).

(** A method call on a fresh fixer instance. *)
Definition run_fresh {A} (m : M A) : result (A * FixerBase) := m FixerBase_init.

(** Two calls of the fixer on one instance, the second on the tree the
    first returned. *)
Definition fix_twice (tree : Module) : M (Module * Module) :=
  let* once := UnpackingGeneralizationsFixer_call tree in
  let* twice := UnpackingGeneralizationsFixer_call once in
  ret (once, twice).

Definition name_ (id : string) : expr := Name id Load.
Definition starred (value : expr) : expr := Starred value Load.
Definition list_ (elts : list expr) : expr := List_ elts (Some Load).
Definition spread (value : expr) : keyword := Keyword None value.

(** [{**a, **b, "x": 1}] *)
Definition dict_a_b_x : expr :=
  Dict [None; None; Some (Str "x")] [name_ "a"; name_ "b"; Num 1].

(** [{**{"a": 1}, **{"b": 2}}] *)
Definition dict_of_two_literals : expr :=
  Dict [None; None] [Dict [Some (Str "a")] [Num 1]; Dict [Some (Str "b")] [Num 2]].

(** [f( **a, x=1, y=2)] *)
Definition call_a_x_y : expr :=
  Call (name_ "f") [] [spread (name_ "a"); Keyword (Some "x") (Num 1);
                       Keyword (Some "y") (Num 2)].

(** [f( **a, **b, x=1)] *)
Definition call_a_b_x : expr :=
  Call (name_ "f") [] [spread (name_ "a"); spread (name_ "b"); Keyword (Some "x") (Num 1)].

(** [f( *a, *[1, 2], z)] *)
Definition call_star_a_list_z : expr :=
  Call (name_ "f") [starred (name_ "a"); starred (list_ [Num 1; Num 2]); name_ "z"] [].

(** [[*[*a], 1]] *)
Definition list_nested_star : expr :=
  list_ [starred (list_ [starred (name_ "a")]); Num 1].

(** [dict( **{"a": 1})] *)
Definition dict_call_of_literal : expr :=
  Call (name_ "dict") [] [spread (Dict [Some (Str "a")] [Num 1])].

(** [dict(itertools.chain(v1.items(), ...))] *)
Definition dict_of_chain (vals : list expr) : expr :=
  Call (Name "dict" Load)
       [Call (Attribute (Name "itertools" Load) "chain" Load) (map items_call vals) []]
       [].

(** [list(x)] *)
Definition list_call (x : expr) : expr := Call (Name "list" Load) [x] [].

Definition with_itertools : FixerBase :=
  {| required_imports := {[ ("itertools", None) ]}; module_declarations := ∅ |}.

(** A module with two star imports and a call of [open] in text mode:
    [from os import *], [from sys import *], [open("f")]. *)
Definition two_star_imports : Module :=
  Mod_ [ImportFrom (Some "os") [Alias "*" None] (Some 0%Z);
        ImportFrom (Some "sys") [Alias "*" None] (Some 0%Z);
        Expr (Call (name_ "open") [Str "f"] [])].

(** ** Notions used to state the properties of the fixer *)

(** A dict display or a call of [dict]: the operands the single dict splat
    of [walk_node] accepts. *)
Definition dictish (v : expr) : bool := is_Dict v || is_dict_call v.

(** Every index of [collapsed] names an object of the store. *)
Definition in_range (st : list expr * list nat) : Prop :=
  Forall (fun p => p < length st.1) st.2.

(** If a single object is referenced, it is a dict display. *)
Definition single_is_dict (st : list expr * list nat) : Prop :=
  forall p, st.2 = [p] -> exists d, st.1 !! p = Some d /\ is_Dict d = true.

(** The second half of [visit_expr] on a node that is a call. *)
Definition kw_part (new_node : expr) (self : FixerBase) : result (expr * FixerBase) :=
  match new_node with
  | Call _ _ keywords =>
      if g12n_loop (fun kw => is_None (kw_arg kw)) false keywords
      then expand_starstararg_g12n new_node self
      else Ok (new_node, self)
  | _ => Raise (TypeError "Unexpected node")
  end.

(** ** Notions used to state the properties of the checkers and the pipeline *)

(** A [from m import *] node: what [NoStarImports] raises on. *)
Definition is_star_import (n : node) : bool :=
  match n with
  | NStmt (ImportFrom _ names _) => existsb (fun a => String.eqb (alias_name a) "*") names
  | _ => false
  end.

Definition star_import_error (module : option string) : exn :=
  CheckError ("Prohibited from " +:+ str_of_opt module +:+ " import *.").

(** The part of the module [fixers] this development covers: the base
    class and one of its subclasses.  The module defines further fixer
    classes, so a selection from [fixers_module] is the selection of the
    program only under a filter that names [UnpackingGeneralizationsFixer];
    under an empty filter the program selects every fixer class. *)
Definition fixers_module : module_t fixer_t :=
  [ ("FixerBase",
     Class "FixerBase" ["FixerBase"; "object"]
       (fun _ _ => Raise (Exception "NotImplementedError")));
    ("UnpackingGeneralizationsFixer",
     Class "UnpackingGeneralizationsFixer"
       ["UnpackingGeneralizationsFixer"; "FixerBase"; "object"]
       UnpackingGeneralizationsFixer) ].

(** The class names of what a generator yields. *)
Definition yielded_names {T} (g : generator (string * T)) : list string := g.1.*1.

(** [open("f")] alone in a module. *)
Definition open_text_mode : Module := Mod_ [Expr (Call (name_ "open") [Str "f"] [])].

(** [x = 1] *)
Definition clean_module : Module := Mod_ [Assign [Name "x" Store] (Num 1)].

(** A configuration that names two checkers, [NoStarImports] first, and
    the one fixer [UnpackingGeneralizationsFixer]. *)
Definition cfg_star_then_async : BuildConfig :=
  mkBuildConfig (Some (NamesStr "nostarimports,noasyncawait"))
                (Some (NamesStr "unpackinggeneralizations")).

(** The same two checkers, named in the other order, and the same fixer. *)
Definition cfg_async_then_star : BuildConfig :=
  mkBuildConfig (Some (NamesStr "noasyncawait,nostarimports"))
                (Some (NamesStr "unpackinggeneralizations")).

(** A configuration that names [NoStarImports], then the open checker. *)
Definition cfg_star_then_open : BuildConfig :=
  mkBuildConfig (Some (NamesStr "NoStarImports, NoOpenWithEncodingChecker")) None.

(** ** Notions used to state further properties of the unpacking fixer *)

(** The elements the positional detector and [expand_stararg_g12n] read:
    [node.args] of a call, [node.elts] of a container. *)
Definition unpack_elts (node : expr) : list expr :=
  match node with
  | Call _ args _ => args
  | List_ elts _ | Set_ elts | Tuple elts _ => elts
  | _ => []
  end.

(** Every spread among the elements has a container display as operand. *)
Definition literal_spreads (elts : list expr) : bool :=
  forallb (fun elt => match elt with
                      | Starred val _ => ContainerNodes val
                      | _ => true
                      end) elts.

(** The elements with each spread of a container display replaced by the
    elements of that display. *)
Definition flatten_spreads (elts : list expr) : list expr :=
  flat_map (fun elt => match elt with
                       | Starred val _ => container_elts val
                       | _ => [elt]
                       end) elts.

(** What the collapse loop makes of a dict display [prev] when the next
    chain value [cur] is a dict display too. *)
Definition merge_one (prev cur : expr) : expr :=
  match prev, cur with
  | Dict pkeys pvalues, Dict ckeys cvalues =>
      Dict (pkeys ++ (zip ckeys cvalues).*1) (pvalues ++ (zip ckeys cvalues).*2)
  | _, _ => prev
  end.

Definition merge_all (first : expr) (rest : list expr) : expr :=
  fold_left merge_one rest first.

(** The only import the fixer records. *)
Definition itertools_decl : ImportDecl := ("itertools", None).

(** [self'] differs from [self] at most by the import of itertools. *)
Definition effect_bounded (self self' : FixerBase) : Prop :=
  module_declarations self' = module_declarations self /\
  (required_imports self' = required_imports self \/
   required_imports self' = {[ itertools_decl ]} ∪ required_imports self).

(** The test at the end of [walk_node], as a predicate of the node. *)
Definition is_single_dict_splat (e : expr) : bool :=
  match e with
  | Call _ args (k :: ks) =>
      is_dict_call e && Nat.eqb (length args) 0 && Nat.eqb (length (k :: ks)) 1 &&
      is_None (kw_arg k) && (is_dict_call (kw_value k) || is_Dict (kw_value k))
  | _ => false
  end.

(** Nothing for the fixer to do at this node: neither detector fires and
    the node is not a single dict splat. *)
Definition node_settled (e : expr) : bool :=
  match e with
  | Call _ args keywords =>
      negb (g12n_loop is_Starred false args) &&
      negb (g12n_loop (fun kw => is_None (kw_arg kw)) false keywords) &&
      negb (is_single_dict_splat e)
  | List_ elts _ | Tuple elts _ | Set_ elts => negb (g12n_loop is_Starred false elts)
  | Dict keys _ => negb (g12n_loop is_None false keys)
  | _ => true
  end.

(** Nothing for the fixer to do at any node the walk reaches below [e]. *)
Fixpoint settled (e : expr) : bool :=
  node_settled e &&
  match e with
  | BinOp lhs _ rhs => settled lhs && settled rhs
  | Dict keys values =>
      forallb (fun k => match k with Some key => settled key | None => true end) keys &&
      forallb settled values
  | Set_ elts => forallb settled elts
  | Await value => settled value
  | Call func args keywords =>
      settled func && forallb settled args && forallb settled_keyword keywords
  | Attribute value _ _ => settled value
  | Starred value _ => settled value
  | List_ elts _ | Tuple elts _ => forallb settled elts
  | Num _ | Str _ | Bytes _ | NameConstant _ | Name _ _ => true
  end
with settled_keyword (k : keyword) : bool :=
  match k with Keyword _ value => settled value end.

Definition settled_opt (o : option expr) : bool :=
  match o with Some e => settled e | None => true end.

(** The same for a statement; the arguments of a function definition are
    not looked at, as the walk leaves them out. *)
Fixpoint settled_stmt (s : stmt) : bool :=
  match s with
  | FunctionDef _ _ body decorator_list returns
  | AsyncFunctionDef _ _ body decorator_list returns =>
      forallb settled_stmt body && forallb settled decorator_list && settled_opt returns
  | Return value => settled_opt value
  | Assign targets value => forallb settled targets && settled value
  | While test body orelse | If test body orelse =>
      settled test && forallb settled_stmt body && forallb settled_stmt orelse
  | Import _ | ImportFrom _ _ _ | Pass => true
  | Expr value => settled value
  end.

(** Whatever [walk_node] returns on [e], it records at most the import of
    itertools. *)
Definition bounded_walk (e : expr) : Prop :=
  forall self r self', walk_node e self = Ok (r, self') -> effect_bounded self self'.


(** ** Notions used to state further properties of the open checker *)

(** A keyword the loop of the open checker passes without raising: a
    spread, or a name that is not prohibited and, if it is [mode], has a
    string literal as value. *)
Definition harmless_keyword (kw : keyword) : bool :=
  match kw_arg kw with
  | None => true
  | Some a =>
      negb (Checkers.str_in_list a Checkers.PROHIBITED_OPEN_ARGUMENTS) &&
      (negb (String.eqb a "mode") || match kw_value kw with Str _ => true | _ => false end)
  end.

(** The positional arguments of a call of [open] give no mode, or a string
    literal. *)
Definition positional_mode_ok (args : list expr) : bool :=
  match args with
  | _ :: Str _ :: _ => true
  | _ :: _ :: _ => false
  | _ => true
  end.

(** ** fixers.py: BuiltinsRenameFixerBase *)

(** [self.module_declarations.add(decl)] *)
Definition add_module_declaration (decl : string) : M unit :=
  fun self =>
    Ok (tt, {| required_imports := required_imports self;
               module_declarations := {[ decl ]} ∪ module_declarations self |}).

Definition LF : string := String (ascii_of_nat 10) EmptyString.

(** The declaration text: the f-string of the source, a line feed and
    sixteen blanks before and after the assignment, stripped. *)
Definition builtins_rename_declaration (old_name new_name : string) : string :=
  strip (LF +:+ "                " +:+ new_name +:+ " = getattr(__builtins__, '" +:+ old_name
           +:+ "', " +:+ new_name +:+ ")" +:+ LF +:+ "                ").

(** A [for] loop whose body is a method call. *)
Fixpoint for_each_M {A} (body : A -> M unit) (l : list A) : M unit :=
  match l with
  | [] => ret tt
  | x :: rest => let* _ := body x in for_each_M body rest
  end.

(** The test of the loop of [BuiltinsRenameFixerBase.__call__]: a name in
    load context whose id is [new_name]. *)
Definition reads_name (new_name : string) (n : node) : bool :=
  match n with
  | NExpr (Name id Load) => String.eqb id new_name
  | _ => false
  end.

(** The body of the loop of [BuiltinsRenameFixerBase.__call__]. *)
Definition builtins_rename_body (old_name new_name : string) (node : node) : M unit :=
  match node with
  | NExpr (Name id Load) =>
      if String.eqb id new_name
      then add_module_declaration (builtins_rename_declaration old_name new_name)
      else ret tt
  | _ => ret tt
  end.

(** [BuiltinsRenameFixerBase.__call__], for the class attributes
    [old_name] and [new_name]. *)
Definition BuiltinsRenameFixerBase_call (old_name new_name : string)
    (cfg : BuildConfig) (tree : Module) : M Module :=
  let* _ := for_each_M (builtins_rename_body old_name new_name) (ast_walk (NMod tree)) in
  ret tree.

(** ** Notions used to state properties of [normalize_name] *)

(** The first line of [normalize_name]. *)
Definition squash (name : string) : string :=
  remove_char "-"%char (remove_char "_"%char (lower name)).

(** * Properties *)

(** ** Version windows *)

Section VersionOrder.

Lemma str_le_refl (a : string) : str_le a a.
Proof.
  unfold str_le, String.leb.
  destruct (String.compare a a) eqn:E; try reflexivity.
  pose proof (String.compare_antisym a a) as H.
  rewrite E in H. discriminate H.
Qed.

Lemma str_lt_not_le (a b : string) : str_lt a b -> String.leb b a = false.
Proof.
  unfold str_lt, String.ltb, String.leb.
  rewrite (String.compare_antisym b a).
  destruct (String.compare a b); simpl; intros H; try discriminate H; reflexivity.
Qed.

End VersionOrder.

(** What [is_applicable_to] computes, in the order of [str]: it holds
    exactly when the source version lies in the works window (from
    [works_since], up to [works_until] when that is set) and the target
    version lies in the apply window, both ends of both windows included,
    all of it compared as text; [works_since] is [apply_since] when the
    constructor is not given one; and a source version that is below
    [works_since] as text is never applicable, whatever the target. *)
Theorem is_applicable_to_window (nfo : Fixers.VersionInfo) (s t : string) :
  (Fixers.is_applicable_to nfo s t = true <->
     str_le (Fixers.works_since nfo) s /\
     (Fixers.works_until nfo = None \/
      exists u, Fixers.works_until nfo = Some u /\ str_le s u) /\
     str_le (Fixers.apply_since nfo) t /\ str_le t (Fixers.apply_until nfo)) /\
  (forall a u wu, Fixers.works_since (Fixers.VersionInfo_init a u None wu) = a) /\
  (str_le (Fixers.apply_since nfo) (Fixers.apply_until nfo) ->
     Fixers.is_required_for nfo (Fixers.apply_since nfo) = true /\
     Fixers.is_required_for nfo (Fixers.apply_until nfo) = true) /\
  (Fixers.works_until nfo = None ->
     Fixers.is_compatible_with nfo (Fixers.works_since nfo) = true) /\
  (forall u, Fixers.works_until nfo = Some u -> str_le (Fixers.works_since nfo) u ->
     Fixers.is_compatible_with nfo u = true) /\
  (str_lt s (Fixers.works_since nfo) -> Fixers.is_applicable_to nfo s t = false).
Proof.
  unfold Fixers.is_applicable_to, Fixers.is_compatible_with, Fixers.is_required_for, str_le.
  split; [split | split; [| split; [| split; [| split]]]].
  - intros H. apply andb_true_iff in H as [H1 H2].
    apply andb_true_iff in H1 as [H1 H3]. apply andb_true_iff in H2 as [H2 H4].
    split; [assumption |]. split; [| split; assumption].
    destruct (Fixers.works_until nfo) as [u|];
      [right; exists u; split; auto | left; reflexivity].
  - intros (H1 & H2 & H3 & H4). rewrite H1, H3, H4. simpl.
    destruct H2 as [H2 | (u & H2 & H5)]; rewrite H2;
      [reflexivity | rewrite H5; reflexivity].
  - reflexivity.
  - intros H. rewrite H.
    rewrite (str_le_refl (Fixers.apply_since nfo)), (str_le_refl (Fixers.apply_until nfo)).
    split; reflexivity.
  - intros H. rewrite H. rewrite (str_le_refl (Fixers.works_since nfo)). reflexivity.
  - intros u H H'. rewrite H, H'. rewrite (str_le_refl u). reflexivity.
  - intros H. rewrite (str_lt_not_le _ _ H). reflexivity.
Qed.

(** The window of [ItertoolsBuiltinsFixer], at source 3.6 and target 2.7. *)
Lemma is_applicable_to_window_witness :
  Fixers.is_applicable_to (Fixers.VersionInfo_init "2.3" "2.7" None (Some "3.7")) "3.6" "2.7"
    = true /\
  Fixers.is_applicable_to (Fixers.VersionInfo_init "2.3" "2.7" None (Some "3.7")) "2.2" "2.7"
    = false.
Proof.
  split.
  - apply (proj1 (is_applicable_to_window
                    (Fixers.VersionInfo_init "2.3" "2.7" None (Some "3.7")) "3.6" "2.7")).
    unfold str_le. simpl. repeat split; try reflexivity.
    right. exists "3.7". split; reflexivity.
  - apply (is_applicable_to_window
             (Fixers.VersionInfo_init "2.3" "2.7" None (Some "3.7")) "2.2" "2.7").
    reflexivity.
Defined.

(** C5.  The windows are compared as text, not component by component.
    For [XrangeToRangeFixer] (works until 3.7, applies up to 2.7), source
    version 3.10 and target version 2.7, [is_applicable_to] answers [True],
    because the text [3.10] is below the text [3.7]; by the order of the
    specification 3.10 is above 3.7 and the fixer is not applicable.  The
    same happens at the apply window: [NamedTupleClassToAssignFixer]
    (applies up to 3.4) is held to be required for target version 3.10.
    In the other direction a source version 2.10 is held to be below
    [works_since] 2.6.  On versions with one-digit components, as 3.6 and
    2.7, the two agree. *)
Theorem is_applicable_to_compares_text :
  (Fixers.is_applicable_to XrangeToRangeFixer_version_info "3.10" "2.7" = true /\
   spec_is_applicable XrangeToRangeFixer_version_info "3.10" "2.7" = false /\
   String.leb "3.10" "3.7" = true /\
   spec_version_le "3.10" "3.7" = false) /\
  (Fixers.is_applicable_to NamedTupleClassToAssignFixer_version_info "3.6" "3.10" = true /\
   spec_is_applicable NamedTupleClassToAssignFixer_version_info "3.6" "3.10" = false) /\
  (Fixers.is_applicable_to NamedTupleClassToAssignFixer_version_info "2.10" "2.7" = false /\
   spec_is_applicable NamedTupleClassToAssignFixer_version_info "2.10" "2.7" = true) /\
  (Fixers.is_applicable_to XrangeToRangeFixer_version_info "3.6" "2.7" = true /\
   spec_is_applicable XrangeToRangeFixer_version_info "3.6" "2.7" = true).
Proof. repeat split; vm_compute; reflexivity. Qed.

(** ** The unpacking fixer on the trees of the examples *)

(** C3.  For [f( *a, *[1, 2], z)] with [a] a bare name the normalizer
    returns the call whose only positional argument is one spread of
    [list(a) + [1, 2, z]]; the whole fixer does the same on a module
    holding that call, and records nothing. *)
Theorem expand_stararg_mixed_dynamic :
  run_fresh (visit_expr call_star_a_list_z) =
    Ok (Call (name_ "f")
             [Starred (BinOp (list_call (name_ "a")) Add
                             (List_ [Num 1; Num 2; name_ "z"] None)) Load]
             [],
        FixerBase_init) /\
  run_fresh (UnpackingGeneralizationsFixer_call (Mod_ [Expr call_star_a_list_z])) =
    Ok (Mod_ [Expr (Call (name_ "f")
                         [Starred (BinOp (list_call (name_ "a")) Add
                                         (List_ [Num 1; Num 2; name_ "z"] None)) Load]
                         [])],
        FixerBase_init).
Proof. split; reflexivity. Qed.

(** C1.  What the code does on the two dict displays of the claim: on
    [{**a, **b, "x": 1}] three chain values remain and the assertion that
    the node is a call fails, in [visit_expr] and so in the whole fixer;
    the call [f( **a, **b, x=1)] with the same chain values gets the single
    spread of [dict(itertools.chain(...))] and records the import; and
    [{**{"a": 1}, **{"b": 2}}] becomes [{"a": 1, "b": 2}] with nothing
    recorded. *)
Theorem expand_starstararg_dict_display :
  run_fresh (visit_expr dict_a_b_x) = Raise AssertionError /\
  run_fresh (UnpackingGeneralizationsFixer_call (Mod_ [Expr dict_a_b_x])) =
    Raise AssertionError /\
  run_fresh (visit_expr call_a_b_x) =
    Ok (Call (name_ "f") []
             [spread (dict_of_chain [name_ "a"; name_ "b"; Dict [Some (Str "x")] [Num 1]])],
        with_itertools) /\
  run_fresh (visit_expr dict_of_two_literals) =
    Ok (Dict [Some (Str "a"); Some (Str "b")] [Num 1; Num 2], FixerBase_init).
Proof. repeat split; vm_compute; reflexivity. Qed.

(** C2.  What the code does on [f( **a, x=1, y=2)]: the collapsed chain
    values are [a] and [{"x": 1, "y": 2}], but the arguments of
    [itertools.chain] are built from the uncollapsed list, whose second
    object was extended in place: three arguments, the last one
    [{"y": 2}.items()] again. *)
Theorem expand_starstararg_chains_uncollapsed :
  (let '(chain_values, collapsed) :=
     collapse [name_ "a"; Dict [Some (Str "x")] [Num 1]; Dict [Some (Str "y")] [Num 2]] in
   deref chain_values collapsed) =
    [name_ "a"; Dict [Some (Str "x"); Some (Str "y")] [Num 1; Num 2]] /\
  run_fresh (visit_expr call_a_x_y) =
    Ok (Call (name_ "f") []
             [spread (dict_of_chain
                        [name_ "a";
                         Dict [Some (Str "x"); Some (Str "y")] [Num 1; Num 2];
                         Dict [Some (Str "y")] [Num 2]])],
        with_itertools) /\
  run_fresh (visit_expr call_a_x_y) <>
    Ok (Call (name_ "f") []
             [spread (dict_of_chain
                        [name_ "a";
                         Dict [Some (Str "x"); Some (Str "y")] [Num 1; Num 2]])],
        with_itertools).
Proof.
  split; [reflexivity |]. split; [vm_compute; reflexivity |].
  vm_compute. intros H. discriminate H.
Qed.

(** C6.  Two runs of the fixer on the module [[*[*a], 1]]: the first
    returns [[*a, 1]], in which an element still follows a spread, and the
    second turns that into [list(a) + [1]]. *)
Theorem fixer_not_idempotent :
  run_fresh (fix_twice (Mod_ [Expr list_nested_star])) =
    Ok ((Mod_ [Expr (List_ [starred (name_ "a"); Num 1] None)],
         Mod_ [Expr (BinOp (list_call (name_ "a")) Add (List_ [Num 1] None))]),
        FixerBase_init) /\
  Mod_ [Expr (List_ [starred (name_ "a"); Num 1] None)] <>
  Mod_ [Expr (BinOp (list_call (name_ "a")) Add (List_ [Num 1] None))].
Proof. split; [reflexivity | intros H; discriminate H]. Qed.

(** ** The interleaving detectors *)

Section Detectors.

Context {A : Type} (is_star : A -> bool).

Lemma g12n_loop_no_star (l : list A) :
  Forall (fun x => is_star x = false) l -> g12n_loop is_star false l = false.
Proof.
  induction 1 as [| x l Hx _ IH]; simpl; [reflexivity |].
  rewrite Hx. exact IH.
Qed.

Lemma g12n_loop_trailing (l : list A) (y : A) :
  Forall (fun x => is_star x = false) l -> g12n_loop is_star false (l ++ [y]) = false.
Proof.
  induction 1 as [| x l Hx _ IH]; simpl; [reflexivity |].
  rewrite Hx. exact IH.
Qed.

Lemma g12n_loop_two (l : list A) (flag : bool) :
  g12n_loop is_star flag l = true -> 1 <= length l /\ (flag = false -> 2 <= length l).
Proof.
  revert flag. induction l as [| x l IH]; simpl; intros flag H; [discriminate H |].
  split; [lia |]. intros ->. apply IH in H as [H _]. lia.
Qed.

End Detectors.

(** C8.  A call whose positional arguments end in their only spread, and
    whose keywords hold no spread, is not an unpacking generalization for
    the detector, and [visit_expr] returns it as it is and leaves the
    fixer's sets alone. *)
Theorem visit_expr_single_trailing_spread
    (func : expr) (xs : list expr) (v : expr) (c : expr_context)
    (keywords : list keyword) (self : FixerBase) :
  Forall (fun x => is_Starred x = false) xs ->
  Forall (fun kw => is_None (kw_arg kw) = false) keywords ->
  _has_stararg_g12n (Call func (xs ++ [Starred v c]) keywords) = Ok false /\
  visit_expr (Call func (xs ++ [Starred v c]) keywords) self =
    Ok (Call func (xs ++ [Starred v c]) keywords, self).
Proof.
  intros Hxs Hkws.
  pose proof (g12n_loop_trailing is_Starred xs (Starred v c) Hxs) as Hstar.
  pose proof (g12n_loop_no_star (fun kw => is_None (kw_arg kw)) keywords Hkws) as Hkw.
  split.
  - simpl. rewrite Hstar. reflexivity.
  - unfold visit_expr, bind, lift, ret. simpl. rewrite Hstar. simpl. rewrite Hkw.
    reflexivity.
Qed.

(** [f(x, *a, key=1)] *)
Lemma visit_expr_single_trailing_spread_witness :
  _has_stararg_g12n
    (Call (name_ "f") ([name_ "x"] ++ [Starred (name_ "a") Load]) [Keyword (Some "key") (Num 1)])
    = Ok false /\
  visit_expr
    (Call (name_ "f") ([name_ "x"] ++ [Starred (name_ "a") Load]) [Keyword (Some "key") (Num 1)])
    FixerBase_init
    = Ok (Call (name_ "f") ([name_ "x"] ++ [Starred (name_ "a") Load])
               [Keyword (Some "key") (Num 1)],
          FixerBase_init).
Proof.
  apply (visit_expr_single_trailing_spread (name_ "f") [name_ "x"] (name_ "a") Load
           [Keyword (Some "key") (Num 1)] FixerBase_init).
  - repeat constructor.
  - repeat constructor.
Defined.

(** ** The collapse loop and the single dict splat *)

Section Collapse.

Lemma last_snoc_inv {X} (l : list X) (p : X) : last l = Some p -> exists l', l = l' ++ [p].
Proof.
  intros H. destruct l as [| x l] using rev_ind; [discriminate H |].
  rewrite last_snoc in H. injection H as ->. eauto.
Qed.

Lemma collapse_step_inv (st : list expr * list nat) (i : nat) :
  st.2 <> [] -> in_range st ->
  (is_Some (st.1 !! i) \/ single_is_dict st) ->
  (collapse_step st i).2 <> [] /\ in_range (collapse_step st i) /\
  (is_Some (st.1 !! i) -> single_is_dict (collapse_step st i)) /\
  (single_is_dict st -> single_is_dict (collapse_step st i)).
Proof.
  destruct st as [store idxs]. unfold in_range, single_is_dict. simpl.
  intros Hne Hrange _.
  destruct (store !! i) as [chain_val |] eqn:Hi.
  2:{ repeat split; auto. intros [? ?]; discriminate. }
  assert (Hilt : i < length store) by (eapply lookup_lt_Some; eauto).
  destruct (last idxs) as [p |] eqn:Hlast.
  2:{ destruct idxs; [congruence |]. apply last_None in Hlast. discriminate Hlast. }
  destruct (last_snoc_inv _ _ Hlast) as [idxs' ->].
  assert (Hp : p < length store).
  { rewrite Forall_app in Hrange. destruct Hrange as [_ Hp]. inversion Hp; assumption. }
  assert (Happ : forall q, (idxs' ++ [p]) ++ [i] = [q] -> False).
  { intros q Hq. apply (f_equal length) in Hq. rewrite !length_app in Hq. simpl in Hq. lia. }
  assert (Hgrow :
    ((idxs' ++ [p]) ++ [i] <> [] /\
     Forall (fun p0 => p0 < length store) ((idxs' ++ [p]) ++ [i]) /\
     (is_Some (Some chain_val) ->
        forall p0, (idxs' ++ [p]) ++ [i] = [p0] ->
                   exists d, store !! p0 = Some d /\ is_Dict d = true) /\
     ((forall p0, idxs' ++ [p] = [p0] -> exists d, store !! p0 = Some d /\ is_Dict d = true) ->
        forall p0, (idxs' ++ [p]) ++ [i] = [p0] ->
                   exists d, store !! p0 = Some d /\ is_Dict d = true))).
  { split; [intros H; apply (f_equal length) in H; rewrite !length_app in H; simpl in H; lia |].
    split; [apply Forall_app; split; [assumption | constructor; [assumption | constructor]] |].
    split; intros _ q Hq; destruct (Happ q Hq). }
  destruct chain_val; try exact Hgrow.
  destruct (store !! p) as [prev |] eqn:Hprev; try exact Hgrow.
  destruct prev; try exact Hgrow.
  simpl. rewrite length_insert.
  split; [assumption |]. split; [assumption |].
  assert (Hsingle : forall p0, idxs' ++ [p] = [p0] ->
            exists d, <[p:=Dict (keys0 ++ (zip keys values).*1) (values0 ++ (zip keys values).*2)]>
                        store !! p0 = Some d /\ is_Dict d = true).
  { intros q Hq. assert (q = p) as ->.
    { destruct idxs' as [| a [| b l]]; simpl in Hq; [congruence | discriminate Hq | discriminate Hq]. }
    eexists. split; [apply list_lookup_insert_eq; assumption | reflexivity]. }
  split; intros _; exact Hsingle.
Qed.

Lemma collapse_fold_inv (ixs : list nat) (st : list expr * list nat) :
  st.2 <> [] -> in_range st -> single_is_dict st ->
  (fold_left collapse_step ixs st).2 <> [] /\
  in_range (fold_left collapse_step ixs st) /\
  single_is_dict (fold_left collapse_step ixs st).
Proof.
  revert st. induction ixs as [| i ixs IH]; intros st Hne Hr Hs; simpl; [auto |].
  destruct (collapse_step_inv st i Hne Hr (or_intror Hs)) as (Hne' & Hr' & _ & Hs').
  apply IH; auto.
Qed.

Lemma deref_in_range (store : list expr) (idxs : list nat) (x : expr) :
  in_range (store, idxs) -> deref store idxs = [x] ->
  exists p, idxs = [p] /\ store !! p = Some x.
Proof.
  unfold in_range, deref. simpl. intros Hr Hd.
  destruct idxs as [| p idxs]; [discriminate Hd |].
  inversion Hr as [| ? ? Hp Hrest]; subst.
  destruct (lookup_lt_is_Some_2 store p Hp) as [d Hd'].
  simpl in Hd. rewrite Hd' in Hd. simpl in Hd.
  destruct idxs as [| q idxs].
  - simpl in Hd. injection Hd as ->. eauto.
  - inversion Hrest as [| ? ? Hq _]; subst.
    destruct (lookup_lt_is_Some_2 store q Hq) as [d2 Hd2].
    simpl in Hd. rewrite Hd2 in Hd. simpl in Hd. discriminate Hd.
Qed.

(** When two or more chain values collapse to one, that one is a dict
    display. *)
Lemma collapse_single_is_dict (chain_values : list expr) (x : expr) :
  2 <= length chain_values ->
  (let '(store, collapsed) := collapse chain_values in deref store collapsed) = [x] ->
  is_Dict x = true.
Proof.
  intros Hlen. unfold collapse.
  destruct chain_values as [| v0 [| v1 rest]]; simpl in Hlen; try lia.
  change (seq 0 (length (v0 :: v1 :: rest))) with (0 :: 1 :: seq 2 (length rest)).
  cbn [fold_left].
  set (st0 := collapse_step (v0 :: v1 :: rest, []) 0).
  assert (Hst0 : st0 = (v0 :: v1 :: rest, [0])) by reflexivity.
  assert (Hne0 : st0.2 <> []) by (rewrite Hst0; discriminate).
  assert (Hr0 : in_range st0).
  { rewrite Hst0. constructor; [simpl; lia | constructor]. }
  assert (Hs1 : is_Some (st0.1 !! 1)) by (rewrite Hst0; simpl; eauto).
  destruct (collapse_step_inv st0 1 Hne0 Hr0 (or_introl Hs1)) as (Hne1 & Hr1 & Hs & _).
  specialize (Hs Hs1).
  destruct (collapse_fold_inv (seq 2 (length rest)) _ Hne1 Hr1 Hs) as (_ & Hr & Hsd).
  destruct (fold_left collapse_step (seq 2 (length rest)) (collapse_step st0 1))
    as [store idxs] eqn:E.
  intros Hd. destruct (deref_in_range store idxs x Hr Hd) as (p & -> & Hp).
  destruct (Hsd p eq_refl) as (d & Hd' & Hdict). simpl in Hd'. congruence.
Qed.

End Collapse.

Section DictSplat.

Lemma bind_Ok_inv {X Y} (m : M X) (k : X -> M Y) (self : FixerBase)
    (y : Y) (self' : FixerBase) :
  bind m k self = Ok (y, self') ->
  exists x s1, m self = Ok (x, s1) /\ k x s1 = Ok (y, self').
Proof.
  unfold bind. destruct (m self) as [[x s1] | e]; [eauto | discriminate].
Qed.

Lemma mapM_length {X Y} (f : X -> M Y) (l : list X) (self : FixerBase)
    (l' : list Y) (self' : FixerBase) :
  mapM f l self = Ok (l', self') -> length l' = length l.
Proof.
  revert self l' self'. induction l as [| x l IH]; intros self l' self'; simpl.
  - unfold ret. intros H. injection H as <- _. reflexivity.
  - unfold bind at 1. destruct (f x self) as [[y s1] | e]; [| discriminate].
    unfold bind at 1.
    destruct (mapM f l s1) as [[ys s2] | e] eqn:E; [| discriminate].
    unfold ret. intros H. injection H as <- _. simpl. f_equal. eapply IH. exact E.
Qed.

Lemma single_dict_splat_dictish (r : expr) :
  dictish r = true -> dictish (single_dict_splat r) = true.
Proof.
  intros Hr. destruct r; simpl; try exact Hr.
  destruct keywords as [| k ks]; [exact Hr |].
  match goal with |- context [if ?b then _ else _] => destruct b eqn:E end; [| exact Hr].
  apply andb_true_iff in E as [_ E]. unfold dictish. rewrite orb_comm. exact E.
Qed.

Lemma single_dict_splat_of_dict_call (c : expr_context) (v : expr) :
  dictish v = true ->
  single_dict_splat (Call (Name "dict" c) [] [Keyword None v]) = v.
Proof.
  intros Hv. unfold dictish in Hv. simpl. rewrite orb_comm in Hv. rewrite Hv. reflexivity.
Qed.

Lemma expand_stararg_g12n_call (func : expr) (args : list expr) (keywords : list keyword)
    (r : expr) :
  expand_stararg_g12n (Call func args keywords) = Ok r ->
  exists args', r = Call func args' keywords.
Proof.
  unfold expand_stararg_g12n, result_bind.
  destruct (stararg_loop [List_ [] None] args) as [operands | e]; [| discriminate].
  destruct (match last operands with
            | Some (List_ tail_elts _) =>
                Ok (if Nat.eqb (length tail_elts) 0 then removelast operands else operands)
            | _ => Raise AssertionError
            end) as [ops | e]; [| discriminate].
  destruct ops as [| o0 [| o1 others]]; [discriminate | |].
  - destruct o0; try discriminate. simpl. intros H. injection H as <-. eauto.
  - simpl. intros H. injection H as <-. eauto.
Qed.

Lemma expand_starstararg_g12n_dictish (node : expr) (chain_values : list expr)
    (self : FixerBase) (r : expr) (self' : FixerBase) :
  dictish node = true ->
  chain_values_of node = Ok chain_values -> 2 <= length chain_values ->
  expand_starstararg_g12n node self = Ok (r, self') -> dictish r = true.
Proof.
  intros Hnode Hcv Hlen. unfold expand_starstararg_g12n, bind, lift. rewrite Hcv.
  pose proof (collapse_single_is_dict chain_values) as Hsingle.
  destruct (collapse chain_values) as [store collapsed].
  destruct (deref store collapsed) as [| x [| y l]].
  - discriminate.
  - specialize (Hsingle x Hlen eq_refl).
    destruct node; try discriminate Hnode.
    + unfold ret. intros H. injection H as <- _. unfold dictish. rewrite Hsingle. reflexivity.
    + match type of Hnode with
      | dictish ?n = true => change (is_dict_call n = true) in Hnode
      end.
      rewrite Hnode.
      unfold ret. intros H. injection H as <- _. unfold dictish. rewrite Hsingle. reflexivity.
  - destruct node; try discriminate Hnode; [discriminate |].
    unfold add_required_import, ret. cbv beta iota. intros H. injection H as <- _.
    unfold dictish in *. simpl in *. exact Hnode.
Qed.

Lemma visit_expr_Call (func : expr) (args : list expr) (keywords : list keyword)
    (self : FixerBase) :
  visit_expr (Call func args keywords) self =
    if g12n_loop is_Starred false args
    then match expand_stararg_g12n (Call func args keywords) with
         | Ok new_node => kw_part new_node self
         | Raise e => Raise e
         end
    else kw_part (Call func args keywords) self.
Proof.
  unfold visit_expr, bind, lift, ret. simpl.
  destruct (g12n_loop is_Starred false args).
  - destruct (expand_stararg_g12n (Call func args keywords)) as [r1 |] eqn:E; [| reflexivity].
    destruct (expand_stararg_g12n_call _ _ _ _ E) as [args' ->]. simpl.
    destruct (g12n_loop _ false keywords); reflexivity.
  - simpl. destruct (g12n_loop _ false keywords); reflexivity.
Qed.

Lemma visit_expr_dictish (node : expr) (self : FixerBase) (r : expr) (self' : FixerBase) :
  dictish node = true ->
  (forall keys values, node = Dict keys values -> length keys = length values) ->
  visit_expr node self = Ok (r, self') -> dictish r = true.
Proof.
  intros Hnode Hwf. destruct node as [| keys values | | | func args keywords | | | | | | | | |]; try discriminate Hnode.
  - (* a dict display *)
    unfold visit_expr, bind, lift, ret. simpl.
    destruct (g12n_loop is_None false keys) eqn:Hg.
    + apply (expand_starstararg_g12n_dictish _ _ _ _ _ Hnode eq_refl).
      rewrite length_map, length_zip_with, <- (Hwf keys values eq_refl).
      apply g12n_loop_two in Hg as [_ Hg]. specialize (Hg eq_refl). lia.
    + intros H. injection H as <- _. exact Hnode.
  - (* a call of dict *)
    rewrite visit_expr_Call.
    destruct (g12n_loop is_Starred false args).
    + destruct (expand_stararg_g12n (Call func args keywords)) as [r1 |] eqn:E;
        [| discriminate].
      destruct (expand_stararg_g12n_call _ _ _ _ E) as [args' ->].
      cbn [kw_part]. destruct (g12n_loop (fun kw => is_None (kw_arg kw)) false keywords) eqn:Hg.
      * apply (expand_starstararg_g12n_dictish (Call func args' keywords) _ _ _ _ Hnode eq_refl).
        rewrite length_map. apply g12n_loop_two in Hg as [_ Hg]. specialize (Hg eq_refl). lia.
      * intros H. injection H as <- _. exact Hnode.
    + cbn [kw_part]. destruct (g12n_loop (fun kw => is_None (kw_arg kw)) false keywords) eqn:Hg.
      * apply (expand_starstararg_g12n_dictish (Call func args keywords) _ _ _ _ Hnode eq_refl).
        rewrite length_map. apply g12n_loop_two in Hg as [_ Hg]. specialize (Hg eq_refl). lia.
      * intros H. injection H as <- _. exact Hnode.
Qed.

Lemma walk_node_dictish (v : expr) (self : FixerBase) (r : expr) (self' : FixerBase) :
  dictish v = true ->
  (forall keys values, v = Dict keys values -> length keys = length values) ->
  walk_node v self = Ok (r, self') -> dictish r = true.
Proof.
  intros Hv Hwf.
  destruct v as [| keys values | | | func args keywords | | | | | | | | |];
    try discriminate Hv.
  - (* a dict display *)
    cbn [walk_node LeafNodes]. intros H.
    apply bind_Ok_inv in H as (node' & s3 & H & Hvis).
    apply bind_Ok_inv in H as (keys' & s1 & Ek & H).
    apply bind_Ok_inv in H as (values' & s2 & Ev & H).
    injection H as <- <-.
    apply bind_Ok_inv in Hvis as (r0 & s4 & Hvis & H).
    injection H as <- _.
    apply single_dict_splat_dictish.
    apply (visit_expr_dictish (Dict keys' values') _ _ _ eq_refl) in Hvis; [exact Hvis |].
    intros ks vs H. injection H as <- <-.
    rewrite (mapM_length _ _ _ _ _ Ek), (mapM_length _ _ _ _ _ Ev).
    apply Hwf. reflexivity.
  - (* a call of dict *)
    destruct func as [| | | | | | | | | | | id ctx | |]; try discriminate Hv.
    cbn [walk_node LeafNodes]. intros H.
    apply bind_Ok_inv in H as (node' & s3 & H & Hvis).
    apply bind_Ok_inv in H as (func' & s0 & Ef & H).
    injection Ef as <- <-.
    apply bind_Ok_inv in H as (args' & s1 & Ea & H).
    apply bind_Ok_inv in H as (keywords' & s2 & Ek & H).
    injection H as <- <-.
    apply bind_Ok_inv in Hvis as (r0 & s4 & Hvis & H).
    injection H as <- _.
    apply single_dict_splat_dictish.
    apply (visit_expr_dictish (Call (Name id ctx) args' keywords') _ _ _ Hv) in Hvis;
      [exact Hvis |].
    intros ks vs H. discriminate H.
Qed.

End DictSplat.

(** C10.  The walk turns [dict( **v)], with no positional argument and [v]
    a dict display (with as many keys as values, as the parser builds
    them) or a call of [dict], into what it turns [v] itself: the operand,
    walked, takes the place of the call.  No interleaved spread is needed
    for this. *)
Theorem walk_node_single_dict_splat (c : expr_context) (v : expr) (self : FixerBase) :
  dictish v = true ->
  (forall keys values, v = Dict keys values -> length keys = length values) ->
  walk_node (Call (Name "dict" c) [] [Keyword None v]) self = walk_node v self.
Proof.
  intros Hv Hwf.
  assert (Hleaf : LeafNodes v = false) by (destruct v; try discriminate Hv; reflexivity).
  pose proof (walk_node_dictish v self) as Hd.
  cbn [walk_node LeafNodes mapM walk_keyword]. rewrite Hleaf.
  unfold bind, ret. 
  destruct (walk_node v self) as [[v' s1] |] eqn:E; [| reflexivity].
  specialize (Hd v' s1 Hv Hwf eq_refl).
  unfold visit_expr, bind, lift, ret. simpl.
  unfold dictish in Hd. rewrite orb_comm in Hd. rewrite Hd. reflexivity.
Qed.

Lemma walk_node_single_dict_splat_witness :
  walk_node dict_call_of_literal FixerBase_init =
    Ok (Dict [Some (Str "a")] [Num 1], FixerBase_init).
Proof.
  unfold dict_call_of_literal, name_, spread.
  rewrite (walk_node_single_dict_splat Load (Dict [Some (Str "a")] [Num 1]) FixerBase_init).
  - reflexivity.
  - reflexivity.
  - intros keys values H. injection H as <- <-. reflexivity.
Defined.

(** ** ast.walk visits every node *)

Section Walk.

Lemma sum_sizes_app {X} (f : X -> nat) (l1 l2 : list X) :
  sum_sizes f (l1 ++ l2) = sum_sizes f l1 + sum_sizes f l2.
Proof. unfold sum_sizes. rewrite map_app. apply list_sum_app. Qed.

Lemma sum_sizes_map {X Y} (f : Y -> nat) (g : X -> Y) (l : list X) :
  sum_sizes f (map g l) = sum_sizes (fun x => f (g x)) l.
Proof. unfold sum_sizes. rewrite map_map. reflexivity. Qed.

Lemma sum_NStmt (l : list stmt) : sum_sizes node_size (map NStmt l) = sum_sizes stmt_size l.
Proof. unfold sum_sizes. rewrite map_map. reflexivity. Qed.

Lemma sum_NExpr (l : list expr) : sum_sizes node_size (map NExpr l) = sum_sizes expr_size l.
Proof. unfold sum_sizes. rewrite map_map. reflexivity. Qed.

Lemma sum_NKeyword (l : list keyword) :
  sum_sizes node_size (map NKeyword l) = sum_sizes keyword_size l.
Proof. unfold sum_sizes. rewrite map_map. reflexivity. Qed.

Lemma sum_NArg (l : list arg) : sum_sizes node_size (map NArg l) = sum_sizes arg_size l.
Proof. unfold sum_sizes. rewrite map_map. reflexivity. Qed.

Lemma sum_NAlias (l : list alias) : sum_sizes node_size (map NAlias l) = length l.
Proof. induction l as [| a l IH]; [reflexivity |]. cbn. f_equal. exact IH. Qed.

Lemma sum_omap (l : list (option expr)) :
  sum_sizes expr_size (omap id l) = sum_sizes (opt_size expr_size) l.
Proof.
  induction l as [| [e |] l IH]; [reflexivity | |]; cbn; [f_equal |]; exact IH.
Qed.

Lemma sum_opt_expr (o : option expr) :
  sum_sizes node_size (opt_nodes NExpr o) = opt_size expr_size o.
Proof. destruct o; cbn; lia. Qed.

Lemma sum_opt_arg (o : option arg) :
  sum_sizes node_size (opt_nodes NArg o) = opt_size arg_size o.
Proof. destruct o; cbn; lia. Qed.

Lemma sum_opt_ctx (o : option expr_context) :
  sum_sizes node_size (opt_nodes NCtx o) = opt_size (fun _ => 1) o.
Proof. destruct o; cbn; lia. Qed.

Lemma sum_sizes_cons {X} (f : X -> nat) (x : X) (l : list X) :
  sum_sizes f (x :: l) = f x + sum_sizes f l.
Proof. reflexivity. Qed.

Ltac sizes :=
  repeat first
    [ rewrite sum_sizes_app | rewrite sum_sizes_cons
    | rewrite sum_NStmt | rewrite sum_NExpr | rewrite sum_NKeyword | rewrite sum_NArg
    | rewrite sum_NAlias | rewrite sum_omap
    | rewrite sum_opt_expr | rewrite sum_opt_arg | rewrite sum_opt_ctx ].

(** A node counts for one more than its children together. *)
Lemma node_size_children (n : node) :
  node_size n = S (sum_sizes node_size (iter_child_nodes n)).
Proof.
  destruct n as [m | s | e | k | a | a | a | c | o];
    try reflexivity.
  - cbn [iter_child_nodes node_size]. sizes. reflexivity.
  - destruct s; cbn [iter_child_nodes node_size stmt_size]; sizes;
      change (sum_sizes node_size []) with 0; cbn [node_size]; lia.
  - destruct e; cbn [iter_child_nodes node_size expr_size]; sizes;
      change (sum_sizes node_size []) with 0; cbn [node_size]; lia.
  - destruct k. cbn. lia.
  - cbn [iter_child_nodes node_size]. unfold arguments_size. sizes. change (sum_sizes node_size []) with 0. lia.
  - cbn [iter_child_nodes node_size]. unfold arg_size. sizes. change (sum_sizes node_size []) with 0. lia.
Qed.

Lemma walk_fuel_closed (fuel : nat) (todo : list node) :
  sum_sizes node_size todo <= fuel ->
  (forall n, n ∈ todo -> n ∈ walk_fuel fuel todo) /\
  (forall n c, n ∈ walk_fuel fuel todo -> c ∈ iter_child_nodes n -> c ∈ walk_fuel fuel todo).
Proof.
  revert todo. induction fuel as [| fuel IH]; intros todo Hsize.
  - destruct todo as [| n rest].
    + split; [intros n H | intros n c H]; inversion H.
    + rewrite sum_sizes_cons, (node_size_children n) in Hsize. lia.
  - destruct todo as [| n rest].
    + split; [intros n H | intros n c H]; inversion H.
    + cbn [walk_fuel].
      destruct (IH (rest ++ iter_child_nodes n)) as [Hin Hclosed].
      { rewrite sum_sizes_cons, (node_size_children n) in Hsize. rewrite sum_sizes_app. lia. }
      split.
      * intros m Hm. apply elem_of_cons in Hm as [-> | Hm]; [left |].
        right. apply Hin. apply elem_of_app. left. exact Hm.
      * intros m c Hm Hc. right. apply elem_of_cons in Hm as [-> | Hm].
        -- apply Hin. apply elem_of_app. right. exact Hc.
        -- eapply Hclosed; eauto.
Qed.

(** The fuel of [ast_walk] is enough: the walk yields the tree and, with a
    node, every child of it. *)
Lemma ast_walk_closed (tree : node) :
  tree ∈ ast_walk tree /\
  (forall n c, n ∈ ast_walk tree -> c ∈ iter_child_nodes n -> c ∈ ast_walk tree).
Proof.
  unfold ast_walk.
  destruct (walk_fuel_closed (node_size tree) [tree]) as [Hin Hclosed].
  { rewrite sum_sizes_cons. cbn. lia. }
  split; [apply Hin; left | exact Hclosed].
Qed.

End Walk.

(** ** The checkers *)

Section ForEach.

Context {X : Type} (body : X -> result unit).

Lemma for_each_first_raise (pre : list X) (x : X) (post : list X) (e : exn) :
  Forall (fun y => body y = Ok tt) pre -> body x = Raise e ->
  for_each body (pre ++ x :: post) = Raise e.
Proof.
  intros Hpre Hx. induction Hpre as [| y pre Hy _ IH]; simpl.
  - rewrite Hx. reflexivity.
  - rewrite Hy. exact IH.
Qed.

Lemma for_each_all_ok (l : list X) :
  Forall (fun y => body y = Ok tt) l -> for_each body l = Ok tt.
Proof.
  induction 1 as [| y l Hy _ IH]; simpl; [reflexivity |]. rewrite Hy. exact IH.
Qed.

Lemma for_each_check_error (l : list X) (x : X) :
  x ∈ l ->
  (forall y e, body y = Raise e -> exists msg, e = CheckError msg) ->
  (exists msg, body x = Raise (CheckError msg)) ->
  exists msg, for_each body l = Raise (CheckError msg).
Proof.
  intros Hin Hall Hx. induction l as [| y l IH]; [inversion Hin |].
  simpl. destruct (body y) as [[] | e] eqn:Ey.
  - apply elem_of_cons in Hin as [-> | Hin]; [| exact (IH Hin)].
    destruct Hx as [msg Hx]. congruence.
  - destruct (Hall y e Ey) as [msg ->]. eauto.
Qed.

End ForEach.

Section OpenChecker.

Lemma open_keywords_raise (keywords : list keyword) (mode : string) (e : exn) :
  Checkers.open_keywords mode keywords = Raise e -> exists msg, e = CheckError msg.
Proof.
  revert mode. induction keywords as [| kw rest IH]; intros mode; cbn [Checkers.open_keywords]; [discriminate |].
  destruct (kw_arg kw) as [a |]; [| apply IH].
  destruct (Checkers.str_in_list a Checkers.PROHIBITED_OPEN_ARGUMENTS).
  { intros H. injection H as <-. eauto. }
  destruct (negb (a =? "mode")%string); [apply IH |].
  destruct (kw_value kw); try apply IH;
    intros H; injection H as <-; unfold Checkers.mode_error; eauto.
Qed.

Lemma check_open_node_raise (n : node) (e : exn) :
  Checkers.check_open_node n = Raise e -> exists msg, e = CheckError msg.
Proof.
  unfold Checkers.check_open_node.
  destruct n as [| | ex | | | | | |]; try discriminate.
  destruct ex as [| | | | func args keywords | | | | | | | | |]; try discriminate.
  destruct func as [| | | | | | | | | | | id ctx | |]; try discriminate.
  destruct ctx; try discriminate.
  destruct (negb (id =? "open")%string); [discriminate |].
  unfold result_bind.
  assert (Hrest : forall mode,
    (if Nat.ltb 3 (length args)
     then Raise (CheckError "Prohibited positional arguments to builtin.open")
     else match Checkers.open_keywords mode keywords with
          | Ok mode0 =>
              if negb (char_in "b"%char mode0)
              then Raise (CheckError
                     ("Prohibited value '" +:+ mode0 +:+ "' for argument 'mode' of builtin.open. "
                      +:+ "Only binary modes are allowed, use io.open as an alternative."))
              else Ok tt
          | Raise e0 => Raise e0
          end) = Raise e -> exists msg, e = CheckError msg).
  { intros mode. destruct (Nat.ltb 3 (length args)).
    - intros H. injection H as <-. eauto.
    - destruct (Checkers.open_keywords mode keywords) as [m |] eqn:E.
      + destruct (negb (char_in "b"%char m)); [| discriminate].
        intros H. injection H as <-. eauto.
      + intros H. injection H as <-. eapply open_keywords_raise; eauto. }
  destruct args as [| a0 [| mode_node args]]; try apply Hrest.
  destruct mode_node; try apply Hrest;
    intros H; injection H as <-; unfold Checkers.mode_error; eauto.
Qed.

Lemma open_keywords_no_mode (keywords : list keyword) (mode : string) :
  Forall (fun kw => kw_arg kw <> Some "mode") keywords ->
  Checkers.open_keywords mode keywords = Ok mode \/
  exists msg, Checkers.open_keywords mode keywords = Raise (CheckError msg).
Proof.
  induction 1 as [| kw rest Hkw _ IH]; cbn [Checkers.open_keywords]; [left; reflexivity |].
  destruct (kw_arg kw) as [a |]; [| exact IH].
  destruct (Checkers.str_in_list a Checkers.PROHIBITED_OPEN_ARGUMENTS); [right; eauto |].
  destruct (a =? "mode")%string eqn:E; [| exact IH].
  apply String.eqb_eq in E. subst a. congruence.
Qed.

Lemma check_open_node_default_mode (args : list expr) (keywords : list keyword) :
  length args <= 1 ->
  Forall (fun kw => kw_arg kw <> Some "mode") keywords ->
  exists msg,
    Checkers.check_open_node (NExpr (Call (Name "open" Load) args keywords))
      = Raise (CheckError msg).
Proof.
  intros Hargs Hkws. unfold Checkers.check_open_node. simpl negb. cbv iota.
  assert (Hmode : match args with
                  | _ :: mode_node :: _ =>
                      match mode_node with
                      | Str s => Ok s
                      | _ => Raise Checkers.mode_error
                      end
                  | _ => Ok "r"
                  end = Ok "r").
  { destruct args as [| a0 [| a1 rest]]; try reflexivity. simpl in Hargs. lia. }
  rewrite Hmode. unfold result_bind.
  assert (Hlt : Nat.ltb 3 (length args) = false) by (apply Nat.ltb_ge; lia).
  rewrite Hlt.
  destruct (open_keywords_no_mode keywords "r" Hkws) as [-> | [msg ->]]; [| eauto].
  simpl. eauto.
Qed.

End OpenChecker.

(** C9.  A tree in which [ast.walk] meets a call of the bare name [open],
    in load context, with at most one positional argument and no keyword
    named [mode], makes the open checker raise a check error: at that call
    the mode is still the default [r], which has no [b] (and a prohibited
    keyword of that call, or an earlier offending call, raises a check
    error before that). *)
Theorem open_without_mode_rejected
    (cfg : BuildConfig) (tree : Module) (args : list expr) (keywords : list keyword) :
  NExpr (Call (Name "open" Load) args keywords) ∈ ast_walk (NMod tree) ->
  length args <= 1 ->
  Forall (fun kw => kw_arg kw <> Some "mode") keywords ->
  exists msg, Checkers.NoOpenWithEncodingChecker_call cfg tree = Raise (CheckError msg).
Proof.
  intros Hin Hargs Hkws. unfold Checkers.NoOpenWithEncodingChecker_call.
  eapply for_each_check_error.
  - exact Hin.
  - exact check_open_node_raise.
  - apply check_open_node_default_mode; assumption.
Qed.

Lemma open_without_mode_rejected_witness :
  exists msg,
    Checkers.NoOpenWithEncodingChecker_call (mkBuildConfig None None) open_text_mode
      = Raise (CheckError msg).
Proof.
  apply (open_without_mode_rejected (mkBuildConfig None None) open_text_mode [Str "f"] []).
  - vm_compute. repeat constructor.
  - simpl. lia.
  - constructor.
Defined.

(** ** The pipeline *)

Section Pipeline.

Lemma run_checkers_first_raise (cfg : BuildConfig) (tree : Module)
    (pre : list (string * checker_t)) (c : string * checker_t)
    (post : list (string * checker_t)) (cend : option exn) (e : exn) :
  Forall (fun c' : string * checker_t => c'.2 cfg tree = Ok tt) pre ->
  c.2 cfg tree = Raise e ->
  run_checkers cfg tree (pre ++ c :: post) cend =
    (map (fun c' : string * checker_t => Checked c'.1) (pre ++ [c]), Raise e).
Proof.
  intros Hpre Hc. induction Hpre as [| [name chk] pre Hy _ IH]; simpl.
  - destruct c as [name chk]. simpl in *. rewrite Hc. reflexivity.
  - simpl in Hy. rewrite Hy. rewrite IH. reflexivity.
Qed.

Lemma run_checkers_all_ok (cfg : BuildConfig) (tree : Module)
    (items : list (string * checker_t)) :
  Forall (fun c' : string * checker_t => c'.2 cfg tree = Ok tt) items ->
  run_checkers cfg tree items None =
    (map (fun c' : string * checker_t => Checked c'.1) items, Ok tt).
Proof.
  induction 1 as [| [name chk] items Hy _ IH]; simpl; [reflexivity |].
  simpl in Hy. rewrite Hy, IH. reflexivity.
Qed.

Lemma star_names_raise (module : option string) (names : list alias) :
  existsb (fun a => String.eqb (alias_name a) "*") names = true ->
  for_each
    (fun a : alias =>
       if String.eqb (alias_name a) "*" then Raise (star_import_error module) else Ok tt)
    names = Raise (star_import_error module).
Proof.
  induction names as [| a names IH]; simpl; [discriminate |].
  destruct (String.eqb (alias_name a) "*"); simpl; [reflexivity | exact IH].
Qed.

Lemma star_names_ok (module : option string) (names : list alias) :
  existsb (fun a => String.eqb (alias_name a) "*") names = false ->
  for_each
    (fun a : alias =>
       if String.eqb (alias_name a) "*" then Raise (star_import_error module) else Ok tt)
    names = Ok tt.
Proof.
  induction names as [| a names IH]; simpl; [reflexivity |].
  destruct (String.eqb (alias_name a) "*"); simpl; [discriminate | exact IH].
Qed.

(** [NoStarImports] raises for the first star import of the walk. *)
Lemma NoStarImports_first (cfg : BuildConfig) (tree : Module)
    (wpre : list node) (module : option string) (names : list alias) (level : option Z)
    (wpost : list node) :
  ast_walk (NMod tree) = wpre ++ NStmt (ImportFrom module names level) :: wpost ->
  Forall (fun n => is_star_import n = false) wpre ->
  is_star_import (NStmt (ImportFrom module names level)) = true ->
  Checkers.NoStarImports_call cfg tree = Raise (star_import_error module).
Proof.
  intros Hwalk Hpre Hstar. unfold Checkers.NoStarImports_call. rewrite Hwalk.
  apply for_each_first_raise.
  - eapply Forall_impl; [exact Hpre |]. intros n Hn.
    destruct n as [| s | | | | | | |]; try reflexivity.
    destruct s; try reflexivity.
    apply star_names_ok. exact Hn.
  - apply star_names_raise. exact Hstar.
Qed.

Lemma selector_names_nonempty (names : names_t) :
  Forall (fun name => String.eqb name "" = false) (selector_names names).
Proof.
  unfold selector_names.
  set (l := match names with NamesStr s => split ","%char s | NamesList l => l end).
  clearbody l. induction l as [| x l IH]; simpl; [constructor |].
  destruct (String.eqb (strip x) "") eqn:E; simpl; [exact IH |].
  constructor; [exact E | exact IH].
Qed.

Lemma yield_selected_order {V} (available : list (string * V))
    (selected_names : list string) (items : list V) :
  yield_selected available selected_names = (items, None) ->
  Forall2 (fun name item => dict_get available name = Some item) selected_names items.
Proof.
  revert items. induction selected_names as [| name rest IH]; intros items; simpl.
  - intros H. injection H as <-. constructor.
  - destruct (dict_get available name) as [inst |] eqn:E; [| discriminate].
    destruct (yield_selected available rest) as [items' end_].
    intros H. injection H as <- ->. constructor; [exact E | apply IH; reflexivity].
Qed.

(** With a filter that names something, the generator yields, name by
    name and in the order of the filter, the class registered under the
    normalized name. *)
Lemma iter_fuzzy_filter_order {T} (names : names_t) (module : module_t T)
    (clazz_name : string) (items : list (string * T)) :
  selector_names names <> [] ->
  iter_fuzzy_selected_classes names module clazz_name = (items, None) ->
  Forall2
    (fun name item =>
       dict_get (available_classes module clazz_name)
                (normalize_name (drop_last_n 4 clazz_name) name) = Some item)
    (selector_names names) items.
Proof.
  intros Hne. unfold iter_fuzzy_selected_classes.
  destruct (negb (endswith clazz_name "Base")); [discriminate |].
  destruct (dict_get module clazz_name) as [[name anc new |] |]; try discriminate.
  destruct (negb (String.eqb name clazz_name)); [discriminate |].
  assert (Hany : existsb (fun name => negb (String.eqb name "")) (selector_names names) = true).
  { pose proof (selector_names_nonempty names) as Hall.
    destruct (selector_names names) as [| x l]; [congruence |].
    inversion Hall as [| ? ? Hx _]; subst. simpl. rewrite Hx. reflexivity. }
  rewrite Hany.
  destruct (Nat.eqb _ 0); [discriminate |].
  intros H. apply yield_selected_order in H.
  apply Forall2_fmap_l in H. exact H.
Qed.

End Pipeline.

(** C7.  When the selector yields the checkers [pre], then [c], then
    [post], every checker of [pre] accepts the tree and [c] raises, the run
    ends with the exception of [c] alone, having called the checkers of
    [pre] and [c] and nothing else: no checker of [post] and no fixer,
    whatever other violations the tree holds.  Inside one checker the
    violation raised is the first the walk meets: [NoStarImports] raises for
    the first star import in the order of [ast.walk]. *)
Theorem checker_fail_fast
    (checkers : module_t checker_t) (fixers : module_t fixer_t)
    (cfg : BuildConfig) (tree : Module)
    (pre : list (string * checker_t)) (c : string * checker_t)
    (post : list (string * checker_t)) (cend : option exn) (e : exn) :
  iter_fuzzy_selected_classes (cfg_get (cfg_checkers cfg)) checkers "CheckerBase"
    = (pre ++ c :: post, cend) ->
  Forall (fun c' : string * checker_t => c'.2 cfg tree = Ok tt) pre ->
  c.2 cfg tree = Raise e ->
  transpile_module checkers fixers cfg tree =
    (map (fun c' : string * checker_t => Checked c'.1) (pre ++ [c]), Raise e) /\
  (forall wpre module names level wpost,
     ast_walk (NMod tree) = wpre ++ NStmt (ImportFrom module names level) :: wpost ->
     Forall (fun n => is_star_import n = false) wpre ->
     is_star_import (NStmt (ImportFrom module names level)) = true ->
     Checkers.NoStarImports_call cfg tree = Raise (star_import_error module)).
Proof.
  intros Hsel Hpre Hc. split.
  - unfold transpile_module. rewrite Hsel.
    rewrite (run_checkers_first_raise cfg tree pre c post cend e Hpre Hc). reflexivity.
  - intros wpre module names level wpost. apply NoStarImports_first.
Qed.

Lemma checker_fail_fast_witness :
  transpile_module (checkers_module []) fixers_module cfg_star_then_open two_star_imports =
    ([Checked "NoStarImports"], Raise (star_import_error (Some "os"))) /\
  Checkers.NoStarImports_call cfg_star_then_open two_star_imports =
    Raise (star_import_error (Some "os")).
Proof.
  destruct (checker_fail_fast (checkers_module []) fixers_module cfg_star_then_open
              two_star_imports []
              ("NoStarImports", Checkers.NoStarImports_call)
              [("NoOpenWithEncodingChecker", Checkers.NoOpenWithEncodingChecker_call)]
              None (star_import_error (Some "os")))
    as [Hrun Hfirst].
  - vm_compute. reflexivity.
  - constructor.
  - vm_compute. reflexivity.
  - split; [exact Hrun |].
    apply (Hfirst [NMod two_star_imports] (Some "os") [Alias "*" None] (Some 0%Z)
             [NStmt (ImportFrom (Some "sys") [Alias "*" None] (Some 0%Z));
              NStmt (Expr (Call (name_ "open") [Str "f"] []));
              NAlias (Alias "*" None); NAlias (Alias "*" None);
              NExpr (Call (name_ "open") [Str "f"] []);
              NExpr (name_ "open"); NExpr (Str "f"); NCtx Load]).
    + vm_compute. reflexivity.
    + repeat constructor.
    + reflexivity.
Defined.

Section Order.

Lemma run_fixers_trace (cfg : BuildConfig) (items : list (string * fixer_t))
    (fend : option exn) (tree : Module) :
  (run_fixers cfg tree items fend).1
    `prefix_of` map (fun f : string * fixer_t => Fixed f.1) items.
Proof.
  revert tree. induction items as [| [name fixer] items IH]; intros tree; simpl.
  - reflexivity.
  - destruct (fixer cfg tree) as [[tree' |] | e]; simpl.
    + specialize (IH tree'). destruct (run_fixers cfg tree' items fend) as [trace r].
      simpl in *. apply prefix_cons. exact IH.
    + apply prefix_cons. apply prefix_nil.
    + apply prefix_cons. apply prefix_nil.
Qed.

End Order.

(** C4, as the code has it.  With a filter that names at least one checker,
    the checkers the selector yields are, name by name and in the order of
    the filter, the classes registered under the normalized names (the same
    holds of the fixers and their filter); and when they all accept the
    tree, the run calls them in that order, and after them fixers only, in
    the order the fixer selector yields them. *)
Theorem selector_follows_filter_order
    (checkers : module_t checker_t) (fixers : module_t fixer_t)
    (cfg : BuildConfig) (tree : Module)
    (citems : list (string * checker_t)) (fitems : list (string * fixer_t))
    (fend : option exn) :
  selector_names (cfg_get (cfg_checkers cfg)) <> [] ->
  iter_fuzzy_selected_classes (cfg_get (cfg_checkers cfg)) checkers "CheckerBase"
    = (citems, None) ->
  iter_fuzzy_selected_classes (cfg_get (cfg_fixers cfg)) fixers "FixerBase"
    = (fitems, fend) ->
  Forall (fun c : string * checker_t => c.2 cfg tree = Ok tt) citems ->
  Forall2
    (fun name item =>
       dict_get (available_classes checkers "CheckerBase") (normalize_name "Checker" name)
         = Some item)
    (selector_names (cfg_get (cfg_checkers cfg))) citems /\
  (selector_names (cfg_get (cfg_fixers cfg)) <> [] -> fend = None ->
   Forall2
     (fun name item =>
        dict_get (available_classes fixers "FixerBase") (normalize_name "Fixer" name)
          = Some item)
     (selector_names (cfg_get (cfg_fixers cfg))) fitems) /\
  exists ftrace r,
    transpile_module checkers fixers cfg tree =
      (map (fun c : string * checker_t => Checked c.1) citems ++ ftrace, r) /\
    ftrace `prefix_of` map (fun f : string * fixer_t => Fixed f.1) fitems.
Proof.
  intros Hne Hsel Hfsel Hok. split; [| split].
  - exact (iter_fuzzy_filter_order _ _ _ _ Hne Hsel).
  - intros Hfne ->. exact (iter_fuzzy_filter_order _ _ _ _ Hfne Hfsel).
  - unfold transpile_module. rewrite Hsel, (run_checkers_all_ok cfg tree citems Hok), Hfsel.
    pose proof (run_fixers_trace cfg fitems fend tree) as Hp.
    destruct (run_fixers cfg tree fitems fend) as [trace r]. eauto.
Qed.

Lemma selector_follows_filter_order_witness :
  exists ftrace r,
    transpile_module (checkers_module []) fixers_module cfg_star_then_async clean_module =
      ([Checked "NoStarImports"; Checked "NoAsyncAwait"] ++ ftrace, r).
Proof.
  destruct (selector_follows_filter_order (checkers_module []) fixers_module
              cfg_star_then_async clean_module
              [("NoStarImports", Checkers.NoStarImports_call);
               ("NoAsyncAwait", Checkers.NoAsyncAwait_call)]
              [("UnpackingGeneralizationsFixer", UnpackingGeneralizationsFixer)] None)
    as (_ & _ & ftrace & r & Hrun & _).
  - vm_compute. discriminate.
  - vm_compute. reflexivity.
  - reflexivity.
  - constructor; [vm_compute; reflexivity |].
    constructor; [vm_compute; reflexivity | constructor].
  - exists ftrace, r. exact Hrun.
Defined.

(** C4, as stated, fails: the two configurations name the same two
    checkers in opposite orders (and the same one fixer), and the runs
    call the checkers in opposite orders, then the fixer; the order of the
    registry (an empty checker filter) has [NoAsyncAwait] before
    [NoStarImports]. *)
Lemma selector_order_counterexample :
  yielded_names (iter_fuzzy_selected_classes (NamesStr "") (checkers_module []) "CheckerBase") =
    ["NoAsyncAwait"; "NoOpenWithEncodingChecker"; "NoOverriddenBuiltinsChecker";
     "NoOverriddenStdlibImportsChecker"; "NoStarImports"; "NoThreeOnlyImports"] /\
  (transpile_module (checkers_module []) fixers_module cfg_star_then_async clean_module).1 =
    [Checked "NoStarImports"; Checked "NoAsyncAwait"; Fixed "UnpackingGeneralizationsFixer"] /\
  (transpile_module (checkers_module []) fixers_module cfg_async_then_star clean_module).1 =
    [Checked "NoAsyncAwait"; Checked "NoStarImports"; Fixed "UnpackingGeneralizationsFixer"] /\
  (transpile_module (checkers_module []) fixers_module cfg_star_then_async clean_module).1 <>
  (transpile_module (checkers_module []) fixers_module cfg_async_then_star clean_module).1.
Proof.
  split; [vm_compute; reflexivity |]. split; [vm_compute; reflexivity |].
  split; [vm_compute; reflexivity |]. vm_compute. intros H. discriminate H.
Qed.

(** * Further properties *)

(** ** The detectors, exactly *)

Section DetectorsExact.

Context {A : Type} (is_star : A -> bool).

Lemma g12n_loop_iff (l : list A) (flag : bool) :
  g12n_loop is_star flag l = true <->
  (flag = true /\ l <> []) \/
  exists l1 x l2, l = l1 ++ x :: l2 /\ is_star x = true /\ l2 <> [].
Proof.
  revert flag. induction l as [| y l IH]; intros flag; simpl.
  - split; [discriminate |]. intros [[_ H] | (l1 & x & l2 & H & _)]; [congruence |].
    destruct l1; discriminate H.
  - destruct flag.
    + split; [intros _; left; split; [reflexivity | discriminate] | reflexivity].
    + rewrite IH. split.
      * intros [[Hy Hl] | (l1 & x & l2 & -> & Hx & Hl2)].
        -- right. exists [], y, l. auto.
        -- right. exists (y :: l1), x, l2. auto.
      * intros [[H _] | (l1 & x & l2 & H & Hx & Hl2)]; [discriminate H |].
        destruct l1 as [| z l1]; simpl in H; injection H as -> ->.
        -- left. split; [exact Hx | exact Hl2].
        -- right. exists l1, x, l2. auto.
Qed.

End DetectorsExact.

(** X1.  The detectors answer [True] exactly when a spread is followed by
    at least one more element: a starred positional argument (or container
    element) that is not the last one, a keyword without a name (or a
    [None] key of a dict display) that is not the last one. *)
Theorem detectors_exact (func : expr) (args : list expr) (keywords : list keyword)
    (keys : list (option expr)) (values : list expr) (ctx : option expr_context) :
  (_has_stararg_g12n (Call func args keywords) = Ok true <->
     exists l1 v c l2, args = l1 ++ Starred v c :: l2 /\ l2 <> []) /\
  (_has_stararg_g12n (List_ args ctx) = Ok true <->
     exists l1 v c l2, args = l1 ++ Starred v c :: l2 /\ l2 <> []) /\
  (_has_starstarargs_g12n (Call func args keywords) = Ok true <->
     exists l1 v l2, keywords = l1 ++ Keyword None v :: l2 /\ l2 <> []) /\
  (_has_starstarargs_g12n (Dict keys values) = Ok true <->
     exists l1 l2, keys = l1 ++ None :: l2 /\ l2 <> []).
Proof.
  assert (Hstar : g12n_loop is_Starred false args = true <->
                  exists l1 v c l2, args = l1 ++ Starred v c :: l2 /\ l2 <> []).
  { rewrite g12n_loop_iff. split.
    - intros [[H _] | (l1 & x & l2 & -> & Hx & Hl2)]; [discriminate H |].
      destruct x; try discriminate Hx. eauto 6.
    - intros (l1 & v & c & l2 & -> & Hl2). right. exists l1, (Starred v c), l2. auto. }
  simpl. repeat split.
  - intros H. apply Hstar. congruence.
  - intros H. f_equal. apply Hstar. exact H.
  - intros H. apply Hstar. congruence.
  - intros H. f_equal. apply Hstar. exact H.
  - intros H. assert (H' : g12n_loop (fun kw => is_None (kw_arg kw)) false keywords = true)
      by congruence.
    apply g12n_loop_iff in H' as [[H' _] | (l1 & x & l2 & -> & Hx & Hl2)]; [discriminate H' |].
    destruct x as [[a |] v]; [discriminate Hx |]. eauto.
  - intros (l1 & v & l2 & -> & Hl2). f_equal. apply g12n_loop_iff. right.
    exists l1, (Keyword None v), l2. auto.
  - intros H. assert (H' : g12n_loop is_None false keys = true) by congruence.
    apply g12n_loop_iff in H' as [[H' _] | (l1 & x & l2 & -> & Hx & Hl2)]; [discriminate H' |].
    destruct x; [discriminate Hx |]. eauto.
  - intros (l1 & l2 & -> & Hl2). f_equal. apply g12n_loop_iff. right.
    exists l1, None, l2. auto.
Qed.

(** ** Literal flattening and the leading dynamic spread *)

Section StarargLoop.

Lemma set_last_snoc {X} (l : list X) (x y : X) : set_last (l ++ [x]) y = l ++ [y].
Proof.
  unfold set_last. rewrite length_app. simpl.
  replace (pred (length l + 1)) with (length l + 0) by lia.
  rewrite insert_app_r. reflexivity.
Qed.

Lemma stararg_loop_literals (elts : list expr) (ops : list expr) (acc : list expr)
    (ctx : option expr_context) :
  literal_spreads elts = true ->
  stararg_loop (ops ++ [List_ acc ctx]) elts =
    Ok (ops ++ [List_ (acc ++ flatten_spreads elts) ctx]).
Proof.
  revert acc. induction elts as [| elt elts IH]; intros acc Hlit; simpl.
  - rewrite app_nil_r. reflexivity.
  - simpl in Hlit. apply andb_true_iff in Hlit as [Helt Hlit].
    unfold stararg_step. rewrite last_snoc.
    destruct elt; simpl; try (rewrite set_last_snoc, IH, <- app_assoc; [reflexivity | exact Hlit]).
    rewrite Helt. simpl. rewrite set_last_snoc, IH, <- app_assoc; [reflexivity | exact Hlit].
Qed.

Lemma removelast_snoc {X} (l : list X) (x : X) : removelast (l ++ [x]) = l.
Proof. apply removelast_last. Qed.

End StarargLoop.

(** X2.  When every spread among the elements of a call or container has a
    container display as operand, [expand_stararg_g12n] flattens them into
    the element list and hands it to [_node_with_elts]: no [list(...)] call
    and no [+] is built.  When nothing is left after flattening (only
    spreads of empty displays) it raises the [RuntimeError] of its last
    line. *)
Theorem expand_stararg_literal_flattening (node : expr) :
  ArgUnpackNodes node = true ->
  literal_spreads (unpack_elts node) = true ->
  expand_stararg_g12n node =
    match flatten_spreads (unpack_elts node) with
    | [] => Raise (RuntimeError "This should not happen")
    | new_elts => _node_with_elts node new_elts
    end.
Proof.
  intros Hnode Hlit. unfold expand_stararg_g12n.
  assert (Helts : match node with
                  | Call _ args _ => Ok args
                  | List_ elts _ | Set_ elts | Tuple elts _ => Ok elts
                  | _ => Raise (TypeError "Unexpected node")
                  end = Ok (unpack_elts node)).
  { destruct node; try discriminate Hnode; reflexivity. }
  rewrite Helts. cbn [result_bind].
  pose proof (stararg_loop_literals (unpack_elts node) [] [] None Hlit) as Hloop.
  cbn [app] in Hloop. rewrite Hloop.
  cbn [result_bind app last].
  destruct (flatten_spreads (unpack_elts node)) as [| x l] eqn:E; reflexivity.
Qed.

(** [[*[1, 2], 3, *[4, 5]]] *)
Lemma expand_stararg_literal_flattening_witness :
  expand_stararg_g12n
    (list_ [starred (list_ [Num 1; Num 2]); Num 3; starred (list_ [Num 4; Num 5])]) =
  Ok (List_ [Num 1; Num 2; Num 3; Num 4; Num 5] None).
Proof.
  rewrite (expand_stararg_literal_flattening
             (list_ [starred (list_ [Num 1; Num 2]); Num 3; starred (list_ [Num 4; Num 5])]));
    reflexivity.
Defined.

(** X3.  When the elements start with a spread of something that is not a
    container display and every later spread has a container display as
    operand, the result is [list(v) + [rest]], wrapped by
    [_node_with_binop] as the kind of node asks; when nothing follows, or
    only spreads of empty displays, the lone operand [list(v)] fails the
    assertion that it is a list display. *)
Theorem expand_stararg_leading_dynamic (node : expr) (v : expr) (c : expr_context)
    (rest : list expr) :
  ArgUnpackNodes node = true ->
  unpack_elts node = Starred v c :: rest ->
  ContainerNodes v = false ->
  literal_spreads rest = true ->
  expand_stararg_g12n node =
    match flatten_spreads rest with
    | [] => Raise AssertionError
    | tail_elts => _node_with_binop node (BinOp (list_call v) Add (List_ tail_elts None))
    end.
Proof.
  intros Hnode Hunpack Hv Hlit. unfold expand_stararg_g12n.
  assert (Helts : match node with
                  | Call _ args _ => Ok args
                  | List_ elts _ | Set_ elts | Tuple elts _ => Ok elts
                  | _ => Raise (TypeError "Unexpected node")
                  end = Ok (unpack_elts node)).
  { destruct node; try discriminate Hnode; reflexivity. }
  rewrite Helts, Hunpack. cbn [result_bind stararg_loop].
  unfold stararg_step at 1. cbn [last]. rewrite Hv. cbn [length Nat.eqb].
  cbn [result_bind].
  pose proof (stararg_loop_literals rest [list_call v] [] None Hlit) as Hloop.
  cbn [app] in Hloop.
  change (set_last [List_ [] None] (Call (Name "list" Load) [v] []) ++ [List_ [] None])
    with [list_call v; List_ [] None].
  rewrite Hloop. cbn [result_bind app last].
  destruct (flatten_spreads rest) as [| x l] eqn:E; reflexivity.
Qed.

(** [{*a, 1, *(2, 3)}] becomes [set(list(a) + [1, 2, 3])]; [f( *a, *[])]
    fails. *)
Lemma expand_stararg_leading_dynamic_witness :
  expand_stararg_g12n
    (Set_ [starred (name_ "a"); Num 1; starred (Tuple [Num 2; Num 3] (Some Load))]) =
    Ok (Call (Name "set" Load)
             [BinOp (list_call (name_ "a")) Add (List_ [Num 1; Num 2; Num 3] None)] []) /\
  expand_stararg_g12n (Call (name_ "f") [starred (name_ "a"); starred (list_ [])] []) =
    Raise AssertionError.
Proof.
  split.
  - rewrite (expand_stararg_leading_dynamic
               (Set_ [starred (name_ "a"); Num 1; starred (Tuple [Num 2; Num 3] (Some Load))])
               (name_ "a") Load [Num 1; starred (Tuple [Num 2; Num 3] (Some Load))]);
      reflexivity.
  - rewrite (expand_stararg_leading_dynamic
               (Call (name_ "f") [starred (name_ "a"); starred (list_ [])] [])
               (name_ "a") Load [starred (list_ [])]);
      reflexivity.
Defined.

(** ** The keyword expansion on calls and on all-literal chains *)

Section CollapseMore.

Lemma collapse_step_basic (st : list expr * list nat) (i : nat) :
  st.2 <> [] -> in_range st ->
  (collapse_step st i).2 <> [] /\ in_range (collapse_step st i).
Proof.
  intros Hne Hr. destruct (st.1 !! i) as [x |] eqn:E.
  - destruct (collapse_step_inv st i Hne Hr) as (H1 & H2 & _); [left; eauto | auto].
  - destruct st as [store idxs]. simpl in E. unfold collapse_step. rewrite E. auto.
Qed.

Lemma collapse_fold_basic (ixs : list nat) (st : list expr * list nat) :
  st.2 <> [] -> in_range st ->
  (fold_left collapse_step ixs st).2 <> [] /\ in_range (fold_left collapse_step ixs st).
Proof.
  revert st. induction ixs as [| i ixs IH]; intros st Hne Hr; simpl; [auto |].
  destruct (collapse_step_basic st i Hne Hr) as [Hne' Hr']. apply IH; assumption.
Qed.

Lemma deref_length (store : list expr) (idxs : list nat) :
  in_range (store, idxs) -> length (deref store idxs) = length idxs.
Proof.
  unfold in_range, deref. simpl. induction 1 as [| p idxs Hp _ IH]; [reflexivity |].
  destruct (lookup_lt_is_Some_2 store p Hp) as [d Hd]. simpl. rewrite Hd. simpl.
  f_equal. exact IH.
Qed.

(** One chain value at least is left of one chain value at least. *)
Lemma collapse_nonempty (chain_values : list expr) :
  chain_values <> [] ->
  (let '(store, collapsed) := collapse chain_values in deref store collapsed) <> [].
Proof.
  intros Hne. unfold collapse. destruct chain_values as [| v0 rest]; [congruence |].
  change (seq 0 (length (v0 :: rest))) with (0 :: seq 1 (length rest)).
  cbn [fold_left].
  change (collapse_step (v0 :: rest, []) 0) with (v0 :: rest, [0]).
  destruct (collapse_fold_basic (seq 1 (length rest)) (v0 :: rest, [0])) as [Hn Hr].
  { discriminate. }
  { constructor; [simpl; lia | constructor]. }
  destruct (fold_left collapse_step (seq 1 (length rest)) (v0 :: rest, [0]))
    as [store idxs].
  intros Hd. apply (f_equal length) in Hd. rewrite (deref_length _ _ Hr) in Hd.
  simpl in Hn, Hd. destruct idxs; [congruence | discriminate Hd].
Qed.

Lemma merge_one_dict (prev cur : expr) : is_Dict prev = true -> is_Dict (merge_one prev cur) = true.
Proof. destruct prev; try discriminate. intros _. destruct cur; reflexivity. Qed.

Lemma merge_all_dict (first : expr) (rest : list expr) :
  is_Dict first = true -> is_Dict (merge_all first rest) = true.
Proof.
  unfold merge_all. revert first. induction rest as [| d rest IH]; intros first H; simpl;
    [exact H |]. apply IH. apply merge_one_dict. exact H.
Qed.

(** On chain values that are all dict displays the loop keeps the first
    object alone and extends it by the pairs of the others, in order. *)
Lemma collapse_all_dicts_fold (first : expr) (rest : list expr) (k : nat) :
  Forall (fun d => is_Dict d = true) (first :: rest) -> k <= length rest ->
  fold_left collapse_step (seq 1 k) (first :: rest, [0]) =
    (merge_all first (take k rest) :: rest, [0]).
Proof.
  intros Hall. induction k as [| k IH]; intros Hk.
  - reflexivity.
  - rewrite seq_S, fold_left_app, IH by lia. cbn [fold_left].
    destruct (lookup_lt_is_Some_2 rest k) as [cur Hcur]; [lia |].
    rewrite (take_S_r _ _ _ Hcur). unfold merge_all. rewrite fold_left_app. cbn [fold_left].
    fold (merge_all first (take k rest)).
    assert (Hprev : is_Dict (merge_all first (take k rest)) = true).
    { apply merge_all_dict. inversion Hall; assumption. }
    assert (Hc : is_Dict cur = true).
    { inversion Hall as [| ? ? _ Hrest]; subst.
      rewrite Forall_forall in Hrest. apply Hrest. eapply list_elem_of_lookup_2. exact Hcur. }
    change (1 + k) with (S k). unfold collapse_step. cbn [last].
    change ((merge_all first (take k rest) :: rest) !! S k) with (rest !! k).
    rewrite Hcur.
    destruct cur; try discriminate Hc.
    change ((merge_all first (take k rest) :: rest) !! 0)
      with (Some (merge_all first (take k rest))).
    destruct (merge_all first (take k rest)); try discriminate Hprev.
    reflexivity.
Qed.

Lemma collapse_all_dicts (first : expr) (rest : list expr) :
  Forall (fun d => is_Dict d = true) (first :: rest) ->
  (let '(store, collapsed) := collapse (first :: rest) in deref store collapsed) =
    [merge_all first rest].
Proof.
  intros Hall. unfold collapse.
  change (seq 0 (length (first :: rest))) with (0 :: seq 1 (length rest)).
  cbn [fold_left].
  change (collapse_step (first :: rest, []) 0) with (first :: rest, [0]).
  rewrite (collapse_all_dicts_fold first rest (length rest) Hall) by lia.
  rewrite firstn_all. reflexivity.
Qed.

End CollapseMore.

(** X4.  On a call, [expand_starstararg_g12n] raises exactly when the call
    has no keyword at all (the assertion that a chain value is left);
    otherwise it returns, and the fixer's sets are as before or gained the
    import of itertools. *)
Theorem expand_starstararg_call_total (func : expr) (args : list expr)
    (keywords : list keyword) (self : FixerBase) :
  (keywords = [] ->
   expand_starstararg_g12n (Call func args keywords) self = Raise AssertionError) /\
  (keywords <> [] ->
   exists r self',
     expand_starstararg_g12n (Call func args keywords) self = Ok (r, self') /\
     effect_bounded self self').
Proof.
  split.
  - intros ->. reflexivity.
  - intros Hne. unfold expand_starstararg_g12n, bind, lift. cbn [chain_values_of].
    set (cv := map _ keywords).
    assert (Hcv : cv <> []) by (subst cv; destruct keywords; [congruence | discriminate]).
    pose proof (collapse_nonempty cv Hcv) as Hd.
    destruct (collapse cv) as [store collapsed].
    destruct (deref store collapsed) as [| x [| y l]]; [congruence | |].
    + destruct (is_dict_call (Call func args keywords)); unfold ret;
        eexists _, _; (split; [reflexivity | split; [reflexivity | left; reflexivity]]).
    + unfold add_required_import, ret. cbv beta iota.
      eexists _, _. split; [reflexivity |]. split; [reflexivity | right; reflexivity].
Qed.

Lemma expand_starstararg_call_total_witness :
  exists r self',
    expand_starstararg_g12n call_a_x_y FixerBase_init = Ok (r, self') /\
    effect_bounded FixerBase_init self'.
Proof.
  apply (expand_starstararg_call_total (name_ "f") []
           [spread (name_ "a"); Keyword (Some "x") (Num 1); Keyword (Some "y") (Num 2)]
           FixerBase_init).
  discriminate.
Defined.

(** X5.  When every chain value of a dict display or call is a dict display
    (pairs, and spreads of dict displays), they collapse into the first
    one, extended in order by the pairs of the others; that display is the
    result for a dict display and for a call of [dict], and the only
    keyword spread of any other call.  Nothing is recorded. *)
Theorem expand_starstararg_all_literal (node : expr) (first : expr) (rest : list expr)
    (self : FixerBase) :
  chain_values_of node = Ok (first :: rest) ->
  Forall (fun d => is_Dict d = true) (first :: rest) ->
  expand_starstararg_g12n node self =
    match node with
    | Call node_func node_args _ =>
        if is_dict_call node then Ok (merge_all first rest, self)
        else Ok (Call node_func node_args [Keyword None (merge_all first rest)], self)
    | _ => Ok (merge_all first rest, self)
    end.
Proof.
  intros Hcv Hall. unfold expand_starstararg_g12n, bind, lift. rewrite Hcv.
  pose proof (collapse_all_dicts first rest Hall) as Hd.
  destruct (collapse (first :: rest)) as [store collapsed]. rewrite Hd.
  destruct node; try discriminate Hcv; try reflexivity.
  destruct (is_dict_call _); reflexivity.
Qed.

(** [{**{"a": 1}, "b": 2, **{"c": 3}}] *)
Lemma expand_starstararg_all_literal_witness :
  expand_starstararg_g12n
    (Dict [None; Some (Str "b"); None]
          [Dict [Some (Str "a")] [Num 1]; Num 2; Dict [Some (Str "c")] [Num 3]])
    FixerBase_init =
  Ok (Dict [Some (Str "a"); Some (Str "b"); Some (Str "c")] [Num 1; Num 2; Num 3],
      FixerBase_init).
Proof.
  rewrite (expand_starstararg_all_literal
             (Dict [None; Some (Str "b"); None]
                   [Dict [Some (Str "a")] [Num 1]; Num 2; Dict [Some (Str "c")] [Num 3]])
             (Dict [Some (Str "a")] [Num 1])
             [Dict [Some (Str "b")] [Num 2]; Dict [Some (Str "c")] [Num 3]]
             FixerBase_init).
  - reflexivity.
  - reflexivity.
  - repeat constructor.
Defined.

(** ** Induction on trees *)

Section TreeInduction.

Variable P : expr -> Prop.

Hypothesis HBinOp : forall lhs op rhs, P lhs -> P rhs -> P (BinOp lhs op rhs).
Hypothesis HDict : forall keys values,
  Forall (fun k => from_option P True k) keys -> Forall P values -> P (Dict keys values).
Hypothesis HSet : forall elts, Forall P elts -> P (Set_ elts).
Hypothesis HAwait : forall value, P value -> P (Await value).
Hypothesis HCall : forall func args keywords,
  P func -> Forall P args -> Forall (fun kw => P (kw_value kw)) keywords ->
  P (Call func args keywords).
Hypothesis HNum : forall n, P (Num n).
Hypothesis HStr : forall s, P (Str s).
Hypothesis HBytes : forall s, P (Bytes s).
Hypothesis HNameConstant : forall value, P (NameConstant value).
Hypothesis HAttribute : forall value attr ctx, P value -> P (Attribute value attr ctx).
Hypothesis HStarred : forall value ctx, P value -> P (Starred value ctx).
Hypothesis HName : forall id ctx, P (Name id ctx).
Hypothesis HList : forall elts ctx, Forall P elts -> P (List_ elts ctx).
Hypothesis HTuple : forall elts ctx, Forall P elts -> P (Tuple elts ctx).

Lemma expr_nested_ind (e : expr) : P e.
Proof.
  revert e. exact (fix expr_nested_ind (e : expr) : P e :=
  let all :=
    fix all (l : list expr) : Forall P l :=
      match l with
      | [] => List.Forall_nil P
      | x :: l' => List.Forall_cons P x l' (expr_nested_ind x) (all l')
      end in
  match e with
  | BinOp lhs op rhs => HBinOp lhs op rhs (expr_nested_ind lhs) (expr_nested_ind rhs)
  | Dict keys values =>
      HDict keys values
        ((fix all_keys (l : list (option expr)) : Forall (fun k => from_option P True k) l :=
            match l with
            | [] => List.Forall_nil _
            | k :: l' =>
                List.Forall_cons (fun k => from_option P True k) k l'
                  (match k return from_option P True k with
                   | Some x => expr_nested_ind x
                   | None => I
                   end)
                  (all_keys l')
            end) keys)
        (all values)
  | Set_ elts => HSet elts (all elts)
  | Await value => HAwait value (expr_nested_ind value)
  | Call func args keywords =>
      HCall func args keywords (expr_nested_ind func) (all args)
        ((fix all_kws (l : list keyword) : Forall (fun kw => P (kw_value kw)) l :=
            match l with
            | [] => List.Forall_nil _
            | kw :: l' =>
                List.Forall_cons (fun kw => P (kw_value kw)) kw l'
                  (match kw return P (kw_value kw) with
                   | Keyword _ value => expr_nested_ind value
                   end)
                  (all_kws l')
            end) keywords)
  | Num n => HNum n
  | Str s => HStr s
  | Bytes s => HBytes s
  | NameConstant value => HNameConstant value
  | Attribute value attr ctx => HAttribute value attr ctx (expr_nested_ind value)
  | Starred value ctx => HStarred value ctx (expr_nested_ind value)
  | Name id ctx => HName id ctx
  | List_ elts ctx => HList elts ctx (all elts)
  | Tuple elts ctx => HTuple elts ctx (all elts)
  end).
Qed.

End TreeInduction.

Section StmtInduction.

Variable P : stmt -> Prop.

Hypothesis HFunctionDef : forall name args body decorator_list returns,
  Forall P body -> P (FunctionDef name args body decorator_list returns).
Hypothesis HAsyncFunctionDef : forall name args body decorator_list returns,
  Forall P body -> P (AsyncFunctionDef name args body decorator_list returns).
Hypothesis HReturn : forall value, P (Return value).
Hypothesis HAssign : forall targets value, P (Assign targets value).
Hypothesis HWhile : forall test body orelse,
  Forall P body -> Forall P orelse -> P (While test body orelse).
Hypothesis HIf : forall test body orelse,
  Forall P body -> Forall P orelse -> P (If test body orelse).
Hypothesis HImport : forall names, P (Import names).
Hypothesis HImportFrom : forall module names level, P (ImportFrom module names level).
Hypothesis HExpr : forall value, P (Expr value).
Hypothesis HPass : P Pass.

Lemma stmt_nested_ind (s : stmt) : P s.
Proof.
  revert s. exact (fix stmt_nested_ind (s : stmt) : P s :=
  let all :=
    fix all (l : list stmt) : Forall P l :=
      match l with
      | [] => List.Forall_nil P
      | x :: l' => List.Forall_cons P x l' (stmt_nested_ind x) (all l')
      end in
  match s with
  | FunctionDef name args body decorator_list returns =>
      HFunctionDef name args body decorator_list returns (all body)
  | AsyncFunctionDef name args body decorator_list returns =>
      HAsyncFunctionDef name args body decorator_list returns (all body)
  | Return value => HReturn value
  | Assign targets value => HAssign targets value
  | While test body orelse => HWhile test body orelse (all body) (all orelse)
  | If test body orelse => HIf test body orelse (all body) (all orelse)
  | Import names => HImport names
  | ImportFrom module names level => HImportFrom module names level
  | Expr value => HExpr value
  | Pass => HPass
  end).
Qed.

End StmtInduction.

(** ** What the fixer records, and where it does nothing *)

Section Effects.

Lemma effect_bounded_refl (self : FixerBase) : effect_bounded self self.
Proof. split; [reflexivity | left; reflexivity]. Qed.

Lemma effect_bounded_trans (s1 s2 s3 : FixerBase) :
  effect_bounded s1 s2 -> effect_bounded s2 s3 -> effect_bounded s1 s3.
Proof.
  intros [Hm1 Hi1] [Hm2 Hi2]. split; [congruence |].
  destruct Hi1 as [Hi1 | Hi1], Hi2 as [Hi2 | Hi2]; rewrite Hi2, Hi1; auto.
  right. rewrite (assoc_L (∪)), (idemp_L (∪)). reflexivity.
Qed.

Lemma expand_starstararg_bounded (node : expr) (self : FixerBase) (r : expr)
    (self' : FixerBase) :
  expand_starstararg_g12n node self = Ok (r, self') -> effect_bounded self self'.
Proof.
  unfold expand_starstararg_g12n, bind, lift.
  destruct (chain_values_of node) as [cv |]; [| discriminate].
  destruct (collapse cv) as [store collapsed].
  destruct (deref store collapsed) as [| x [| y l]]; [discriminate | |].
  - destruct node; try discriminate.
    + intros H. injection H as _ <-. apply effect_bounded_refl.
    + destruct (is_dict_call _); intros H; injection H as _ <-; apply effect_bounded_refl.
  - destruct node; try discriminate.
    unfold add_required_import, ret. cbv beta iota. intros H. injection H as _ <-.
    split; [reflexivity | right; reflexivity].
Qed.

Lemma lift_Ok_inv {X} (r : result X) (self : FixerBase) (x : X) (self' : FixerBase) :
  lift r self = Ok (x, self') -> r = Ok x /\ self' = self.
Proof. unfold lift. destruct r; [| discriminate]. intros H. injection H as <- <-. auto. Qed.

Lemma visit_expr_bounded (node : expr) (self : FixerBase) (r : expr) (self' : FixerBase) :
  visit_expr node self = Ok (r, self') -> effect_bounded self self'.
Proof.
  unfold visit_expr. intros H.
  apply bind_Ok_inv in H as (new_node & s1 & H1 & H2).
  assert (Hs1 : s1 = self).
  { destruct (ArgUnpackNodes node).
    - apply bind_Ok_inv in H1 as (has & s0 & Hl & H1).
      apply lift_Ok_inv in Hl as [_ ->].
      destruct has; [apply lift_Ok_inv in H1 as [_ ->]; reflexivity |].
      injection H1 as _ <-. reflexivity.
    - injection H1 as _ <-. reflexivity. }
  subst s1.
  destruct (KwArgUnpackNodes node).
  - apply bind_Ok_inv in H2 as (has & s0 & Hl & H2).
    apply lift_Ok_inv in Hl as [_ ->].
    destruct has; [eapply expand_starstararg_bounded; exact H2 |].
    injection H2 as _ <-. apply effect_bounded_refl.
  - injection H2 as _ <-. apply effect_bounded_refl.
Qed.

Lemma mapM_bounded {X Y} (f : X -> M Y) (l : list X) :
  Forall (fun x => forall self y self', f x self = Ok (y, self') -> effect_bounded self self') l ->
  forall self l' self', mapM f l self = Ok (l', self') -> effect_bounded self self'.
Proof.
  induction 1 as [| x l Hx _ IH]; intros self l' self' H; simpl in H.
  - injection H as _ <-. apply effect_bounded_refl.
  - apply bind_Ok_inv in H as (y & s1 & Hy & H).
    apply bind_Ok_inv in H as (ys & s2 & Hys & H).
    injection H as _ <-.
    eapply effect_bounded_trans; [eapply Hx; exact Hy | eapply IH; exact Hys].
Qed.

Lemma walk_sub_bounded (e : expr) :
  bounded_walk e ->
  forall self r self',
    (if LeafNodes e then ret e else walk_node e) self = Ok (r, self') ->
    effect_bounded self self'.
Proof.
  intros He self r self'. destruct (LeafNodes e); [| apply He].
  intros H. injection H as _ <-. apply effect_bounded_refl.
Qed.

Lemma walk_subs_bounded (elts : list expr) :
  Forall bounded_walk elts ->
  forall self l' self',
    mapM (fun sub_node => if LeafNodes sub_node then ret sub_node else walk_node sub_node)
         elts self = Ok (l', self') ->
    effect_bounded self self'.
Proof.
  intros Hall. apply mapM_bounded. eapply Forall_impl; [exact Hall |].
  intros e He. apply walk_sub_bounded. exact He.
Qed.

Lemma walk_node_bounded (e : expr) : bounded_walk e.
Proof.
  induction e as [lhs op rhs IHl IHr | keys values IHk IHv | elts IHe | value IHv
                 | func args keywords IHf IHa IHk | n | s | s | value
                 | value attr ctx IHv | value ctx IHv | id ctx | elts ctx IHe | elts ctx IHe]
    using expr_nested_ind; intros self r self' H;
    try (injection H as _ <-; apply effect_bounded_refl);
    cbn [walk_node LeafNodes] in H;
    apply bind_Ok_inv in H as (node' & s9 & H & Hvis);
    apply bind_Ok_inv in Hvis as (r0 & s10 & Hvis & Hret);
    injection Hret as _ <-; apply visit_expr_bounded in Hvis;
    (eapply effect_bounded_trans; [| exact Hvis]).
  - (* BinOp *)
    apply bind_Ok_inv in H as (l' & s1 & Hl & H).
    apply bind_Ok_inv in H as (r' & s2 & Hr & H). injection H as _ <-.
    eapply effect_bounded_trans;
      [eapply (walk_sub_bounded lhs IHl); exact Hl
      | eapply (walk_sub_bounded rhs IHr); exact Hr].
  - (* Dict *)
    apply bind_Ok_inv in H as (keys' & s1 & Hk & H).
    apply bind_Ok_inv in H as (values' & s2 & Hv & H). injection H as _ <-.
    eapply effect_bounded_trans; [| eapply (walk_subs_bounded values IHv); exact Hv].
    eapply mapM_bounded; [| exact Hk].
    eapply Forall_impl; [exact IHk |]. intros [key |] Hkey s y s' Hy.
    + apply bind_Ok_inv in Hy as (key' & s3 & Hy & Hy'). injection Hy' as _ <-.
      eapply walk_sub_bounded; eauto.
    + injection Hy as _ <-. apply effect_bounded_refl.
  - (* Set *)
    apply bind_Ok_inv in H as (elts' & s1 & He & H). injection H as _ <-.
    eapply walk_subs_bounded; eauto.
  - (* Await *)
    apply bind_Ok_inv in H as (value' & s1 & He & H). injection H as _ <-.
    eapply walk_sub_bounded; eauto.
  - (* Call *)
    apply bind_Ok_inv in H as (func' & s1 & Hf & H).
    apply bind_Ok_inv in H as (args' & s2 & Ha & H).
    apply bind_Ok_inv in H as (keywords' & s3 & Hk & H). injection H as _ <-.
    eapply effect_bounded_trans; [eapply (walk_sub_bounded func IHf); exact Hf |].
    eapply effect_bounded_trans; [eapply (walk_subs_bounded args IHa); exact Ha |].
    eapply mapM_bounded; [| exact Hk].
    eapply Forall_impl; [exact IHk |]. intros [a value] Hkw s y s' Hy.
    cbn [walk_keyword] in Hy.
    apply bind_Ok_inv in Hy as (value' & s4 & Hy & Hy'). injection Hy' as _ <-.
    eapply walk_sub_bounded; eauto.
  - (* Attribute *)
    apply bind_Ok_inv in H as (value' & s1 & He & H). injection H as _ <-.
    eapply walk_sub_bounded; eauto.
  - (* Starred *)
    apply bind_Ok_inv in H as (value' & s1 & He & H). injection H as _ <-.
    eapply walk_sub_bounded; eauto.
  - (* List *)
    apply bind_Ok_inv in H as (elts' & s1 & He & H). injection H as _ <-.
    eapply walk_subs_bounded; eauto.
  - (* Tuple *)
    apply bind_Ok_inv in H as (elts' & s1 & He & H). injection H as _ <-.
    eapply walk_subs_bounded; eauto.
Qed.

Lemma walk_exprs_bounded (elts : list expr) (self : FixerBase) (l' : list expr)
    (self' : FixerBase) :
  mapM walk_sub elts self = Ok (l', self') -> effect_bounded self self'.
Proof.
  apply walk_subs_bounded. apply Forall_forall. intros e _. apply walk_node_bounded.
Qed.

Lemma walk_expr_bounded (e : expr) (self : FixerBase) (r : expr) (self' : FixerBase) :
  walk_sub e self = Ok (r, self') -> effect_bounded self self'.
Proof. apply walk_sub_bounded. apply walk_node_bounded. Qed.

Lemma walk_opt_bounded (o : option expr) (self : FixerBase) (r : option expr)
    (self' : FixerBase) :
  walk_opt o self = Ok (r, self') -> effect_bounded self self'.
Proof.
  destruct o as [e |]; simpl; intros H.
  - apply bind_Ok_inv in H as (e' & s1 & He & H). injection H as _ <-.
    eapply walk_expr_bounded; exact He.
  - injection H as _ <-. apply effect_bounded_refl.
Qed.

Lemma walk_stmt_bounded (s : stmt) (self : FixerBase) (r : stmt) (self' : FixerBase) :
  walk_stmt s self = Ok (r, self') -> effect_bounded self self'.
Proof.
  revert self r self'.
  induction s as [name args body decorator_list returns IHb
                 | name args body decorator_list returns IHb
                 | value | targets value | test body orelse IHb IHo
                 | test body orelse IHb IHo | names | module names level | value |]
    using stmt_nested_ind; intros self r self' H; cbn [walk_stmt] in H;
    try (injection H as _ <-; apply effect_bounded_refl).
  - apply bind_Ok_inv in H as (body' & s1 & Hb & H).
    apply bind_Ok_inv in H as (decos' & s2 & Hd & H).
    apply bind_Ok_inv in H as (returns' & s3 & Hr & H). injection H as _ <-.
    eapply effect_bounded_trans; [eapply (mapM_bounded walk_stmt body IHb); exact Hb |].
    eapply effect_bounded_trans; [eapply walk_exprs_bounded; exact Hd |].
    eapply walk_opt_bounded; exact Hr.
  - apply bind_Ok_inv in H as (body' & s1 & Hb & H).
    apply bind_Ok_inv in H as (decos' & s2 & Hd & H).
    apply bind_Ok_inv in H as (returns' & s3 & Hr & H). injection H as _ <-.
    eapply effect_bounded_trans; [eapply (mapM_bounded walk_stmt body IHb); exact Hb |].
    eapply effect_bounded_trans; [eapply walk_exprs_bounded; exact Hd |].
    eapply walk_opt_bounded; exact Hr.
  - apply bind_Ok_inv in H as (value' & s1 & Hv & H). injection H as _ <-.
    eapply walk_opt_bounded; exact Hv.
  - apply bind_Ok_inv in H as (targets' & s1 & Ht & H).
    apply bind_Ok_inv in H as (value' & s2 & Hv & H). injection H as _ <-.
    eapply effect_bounded_trans; [eapply walk_exprs_bounded; exact Ht |].
    eapply walk_expr_bounded; exact Hv.
  - apply bind_Ok_inv in H as (test' & s1 & Ht & H).
    apply bind_Ok_inv in H as (body' & s2 & Hb & H).
    apply bind_Ok_inv in H as (orelse' & s3 & Ho & H). injection H as _ <-.
    eapply effect_bounded_trans; [eapply walk_expr_bounded; exact Ht |].
    eapply effect_bounded_trans; [eapply (mapM_bounded walk_stmt body IHb); exact Hb |].
    eapply (mapM_bounded walk_stmt orelse IHo); exact Ho.
  - apply bind_Ok_inv in H as (test' & s1 & Ht & H).
    apply bind_Ok_inv in H as (body' & s2 & Hb & H).
    apply bind_Ok_inv in H as (orelse' & s3 & Ho & H). injection H as _ <-.
    eapply effect_bounded_trans; [eapply walk_expr_bounded; exact Ht |].
    eapply effect_bounded_trans; [eapply (mapM_bounded walk_stmt body IHb); exact Hb |].
    eapply (mapM_bounded walk_stmt orelse IHo); exact Ho.
  - apply bind_Ok_inv in H as (value' & s1 & Hv & H). injection H as _ <-.
    eapply walk_expr_bounded; exact Hv.
Qed.

End Effects.

(** X6.  Whatever the tree, a run of the fixer that returns leaves
    [module_declarations] as it was, and [required_imports] either as it
    was or with the import of itertools added: the fixer records nothing
    else. *)
Theorem fixer_records_only_itertools (tree : Module) (self : FixerBase)
    (tree' : Module) (self' : FixerBase) :
  UnpackingGeneralizationsFixer_call tree self = Ok (tree', self') ->
  module_declarations self' = module_declarations self /\
  (required_imports self' = required_imports self \/
   required_imports self' = {[ ("itertools", None) ]} ∪ required_imports self).
Proof.
  unfold UnpackingGeneralizationsFixer_call, walk_stmtlist. intros H.
  apply bind_Ok_inv in H as (body' & s1 & Hb & H). injection H as _ <-.
  apply (mapM_bounded walk_stmt (mod_body tree)) in Hb; [exact Hb |].
  apply Forall_forall. intros s _ st r st'. apply walk_stmt_bounded.
Qed.

(** The module holding [f( **a, x=1, y=2)]. *)
Lemma fixer_records_only_itertools_witness :
  exists tree' self',
    UnpackingGeneralizationsFixer_call (Mod_ [Expr call_a_x_y]) FixerBase_init
      = Ok (tree', self') /\
    module_declarations self' = module_declarations FixerBase_init /\
    (required_imports self' = required_imports FixerBase_init \/
     required_imports self' = {[ ("itertools", None) ]} ∪ required_imports FixerBase_init).
Proof.
  eexists _, _. split; [vm_compute; reflexivity |].
  eapply (fixer_records_only_itertools (Mod_ [Expr call_a_x_y]) FixerBase_init).
  vm_compute. reflexivity.
Defined.

Section Settled.

Lemma mapM_id {X} (f : X -> M X) (l : list X) :
  Forall (fun x => forall self, f x self = Ok (x, self)) l ->
  forall self, mapM f l self = Ok (l, self).
Proof.
  induction 1 as [| x l Hx _ IH]; intros self; simpl; [reflexivity |].
  unfold bind. rewrite Hx, IH. reflexivity.
Qed.

Lemma is_single_dict_splat_false (e : expr) :
  is_single_dict_splat e = false -> single_dict_splat e = e.
Proof.
  destruct e as [| | | | func args keywords | | | | | | | | |]; try reflexivity.
  destruct keywords as [| k ks]; [reflexivity |].
  unfold is_single_dict_splat, single_dict_splat. intros H. rewrite H. reflexivity.
Qed.

Lemma visit_expr_settled (e : expr) (self : FixerBase) :
  node_settled e = true -> visit_expr e self = Ok (e, self).
Proof.
  destruct e as [| keys values | elts | | func args keywords | | | | | | | | elts ctx | elts ctx];
    try reflexivity; unfold node_settled; intros H.
  - apply negb_true_iff in H. unfold visit_expr, bind, lift, ret. simpl. rewrite H. reflexivity.
  - apply negb_true_iff in H. unfold visit_expr, bind, lift, ret. simpl. rewrite H. reflexivity.
  - apply andb_true_iff in H as [H _]. apply andb_true_iff in H as [Ha Hk].
    apply negb_true_iff in Ha, Hk.
    rewrite visit_expr_Call, Ha. cbn [kw_part]. rewrite Hk. reflexivity.
  - apply negb_true_iff in H. unfold visit_expr, bind, lift, ret. simpl. rewrite H. reflexivity.
  - apply negb_true_iff in H. unfold visit_expr, bind, lift, ret. simpl. rewrite H. reflexivity.
Qed.

Lemma node_settled_no_splat (e : expr) :
  node_settled e = true -> single_dict_splat e = e.
Proof.
  intros H. apply is_single_dict_splat_false.
  destruct e as [| | | | func args keywords | | | | | | | | |]; try reflexivity.
  unfold node_settled in H. apply andb_true_iff in H as [_ H].
  apply negb_true_iff in H. exact H.
Qed.

Lemma walk_sub_settled (e : expr) :
  (settled e = true -> forall self, walk_node e self = Ok (e, self)) ->
  settled e = true ->
  forall self, (if LeafNodes e then ret e else walk_node e) self = Ok (e, self).
Proof. intros IH He self. destruct (LeafNodes e); [reflexivity | apply IH; exact He]. Qed.

Lemma walk_subs_settled (elts : list expr) :
  Forall (fun e => settled e = true -> forall self, walk_node e self = Ok (e, self)) elts ->
  forallb settled elts = true ->
  forall self,
    mapM (fun sub_node => if LeafNodes sub_node then ret sub_node else walk_node sub_node)
         elts self = Ok (elts, self).
Proof.
  intros IH Hall. apply mapM_id. rewrite forallb_forall in Hall.
  rewrite Forall_forall in IH |- *. intros e He. apply walk_sub_settled.
  - apply IH. exact He.
  - apply Hall. apply list_elem_of_In. exact He.
Qed.

Ltac settle Hs :=
  unfold bind; rewrite (visit_expr_settled _ _ Hs), (node_settled_no_splat _ Hs);
  reflexivity.

Lemma walk_node_settled (e : expr) :
  settled e = true -> forall self, walk_node e self = Ok (e, self).
Proof.
  induction e as [lhs op rhs IHl IHr | keys values IHk IHv | elts IHe | value IHv
                 | func args keywords IHf IHa IHk | n | s | s | value
                 | value attr ctx IHv | value ctx IHv | id ctx | elts ctx IHe | elts ctx IHe]
    using expr_nested_ind; intros Hset self; try reflexivity;
    cbn [settled] in Hset; apply andb_true_iff in Hset as [Hnode Hsub];
    cbn [walk_node LeafNodes].
  - apply andb_true_iff in Hsub as [Hl Hr].
    unfold bind at 1 2. rewrite (walk_sub_settled lhs IHl Hl).
    unfold bind at 1. rewrite (walk_sub_settled rhs IHr Hr). unfold ret at 1.
    settle Hnode.
  - apply andb_true_iff in Hsub as [Hk Hv].
    unfold bind at 1 2.
    rewrite (mapM_id _ keys).
    2:{ rewrite forallb_forall in Hk. rewrite Forall_forall in IHk |- *.
        intros [key |] Hin s0; [| reflexivity].
        unfold bind. rewrite (walk_sub_settled key); [reflexivity | |].
        - exact (IHk _ Hin).
        - apply (Hk (Some key)). apply list_elem_of_In. exact Hin. }
    unfold bind at 1. rewrite (walk_subs_settled values IHv Hv). unfold ret at 1.
    settle Hnode.
  - unfold bind at 1 2. rewrite (walk_subs_settled elts IHe Hsub). unfold ret at 1.
    settle Hnode.
  - unfold bind at 1 2. rewrite (walk_sub_settled value IHv Hsub). unfold ret at 1.
    settle Hnode.
  - apply andb_true_iff in Hsub as [Hsub Hk]. apply andb_true_iff in Hsub as [Hf Ha].
    unfold bind at 1 2. rewrite (walk_sub_settled func IHf Hf).
    unfold bind at 1. rewrite (walk_subs_settled args IHa Ha).
    unfold bind at 1.
    rewrite (mapM_id walk_keyword keywords).
    2:{ rewrite forallb_forall in Hk. rewrite Forall_forall in IHk |- *.
        intros [a value] Hin s0. cbn [walk_keyword]. unfold bind.
        rewrite (walk_sub_settled value); [reflexivity | |].
        - exact (IHk _ Hin).
        - apply (Hk (Keyword a value)). apply list_elem_of_In. exact Hin. }
    unfold ret at 1. settle Hnode.
  - unfold bind at 1 2. rewrite (walk_sub_settled value IHv Hsub). unfold ret at 1.
    settle Hnode.
  - unfold bind at 1 2. rewrite (walk_sub_settled value IHv Hsub). unfold ret at 1.
    settle Hnode.
  - unfold bind at 1 2. rewrite (walk_subs_settled elts IHe Hsub). unfold ret at 1.
    settle Hnode.
  - unfold bind at 1 2. rewrite (walk_subs_settled elts IHe Hsub). unfold ret at 1.
    settle Hnode.
Qed.

End Settled.

Section SettledStmt.

Lemma walk_exprs_settled (elts : list expr) (self : FixerBase) :
  forallb settled elts = true -> mapM walk_sub elts self = Ok (elts, self).
Proof.
  intros H. apply walk_subs_settled; [| exact H].
  apply Forall_forall. intros e _. apply walk_node_settled.
Qed.

Lemma walk_expr_settled (e : expr) (self : FixerBase) :
  settled e = true -> walk_sub e self = Ok (e, self).
Proof. intros H. apply walk_sub_settled; [apply walk_node_settled | exact H]. Qed.

Lemma walk_opt_settled (o : option expr) (self : FixerBase) :
  settled_opt o = true -> walk_opt o self = Ok (o, self).
Proof.
  destruct o as [e |]; simpl; intros H; [| reflexivity].
  unfold bind. rewrite (walk_expr_settled e self H). reflexivity.
Qed.

Lemma walk_stmts_settled (body : list stmt) :
  Forall (fun s => settled_stmt s = true -> forall self, walk_stmt s self = Ok (s, self)) body ->
  forallb settled_stmt body = true ->
  forall self, mapM walk_stmt body self = Ok (body, self).
Proof.
  intros IH Hall. apply mapM_id. rewrite forallb_forall in Hall.
  rewrite Forall_forall in IH |- *. intros s Hs. apply IH; [exact Hs |].
  apply Hall. apply list_elem_of_In. exact Hs.
Qed.

Lemma walk_stmt_settled (s : stmt) :
  settled_stmt s = true -> forall self, walk_stmt s self = Ok (s, self).
Proof.
  induction s as [name args body decorator_list returns IHb
                 | name args body decorator_list returns IHb
                 | value | targets value | test body orelse IHb IHo
                 | test body orelse IHb IHo | names | module names level | value |]
    using stmt_nested_ind; intros Hset self; try reflexivity;
    cbn [settled_stmt] in Hset; cbn [walk_stmt]; unfold bind.
  - apply andb_true_iff in Hset as [Hset Hr]. apply andb_true_iff in Hset as [Hb Hd].
    rewrite (walk_stmts_settled body IHb Hb), (walk_exprs_settled _ _ Hd),
      (walk_opt_settled _ _ Hr). reflexivity.
  - apply andb_true_iff in Hset as [Hset Hr]. apply andb_true_iff in Hset as [Hb Hd].
    rewrite (walk_stmts_settled body IHb Hb), (walk_exprs_settled _ _ Hd),
      (walk_opt_settled _ _ Hr). reflexivity.
  - rewrite (walk_opt_settled _ _ Hset). reflexivity.
  - apply andb_true_iff in Hset as [Ht Hv].
    rewrite (walk_exprs_settled _ _ Ht), (walk_expr_settled _ _ Hv). reflexivity.
  - apply andb_true_iff in Hset as [Hset Ho]. apply andb_true_iff in Hset as [Ht Hb].
    rewrite (walk_expr_settled _ _ Ht), (walk_stmts_settled body IHb Hb),
      (walk_stmts_settled orelse IHo Ho). reflexivity.
  - apply andb_true_iff in Hset as [Hset Ho]. apply andb_true_iff in Hset as [Ht Hb].
    rewrite (walk_expr_settled _ _ Ht), (walk_stmts_settled body IHb Hb),
      (walk_stmts_settled orelse IHo Ho). reflexivity.
  - rewrite (walk_expr_settled _ _ Hset). reflexivity.
Qed.

End SettledStmt.

(** X7.  On a tree in which, at every node the walk reaches, neither
    detector fires and no [dict( **d)] splat of a dict display or [dict]
    call stands, the fixer is the identity: it returns the same tree and
    leaves its sets alone.  (Function arguments are outside the walk and
    may hold anything.) *)
Theorem fixer_identity_on_settled (tree : Module) (self : FixerBase) :
  forallb settled_stmt (mod_body tree) = true ->
  UnpackingGeneralizationsFixer_call tree self = Ok (tree, self).
Proof.
  intros H. unfold UnpackingGeneralizationsFixer_call, walk_stmtlist, bind.
  rewrite (walk_stmts_settled (mod_body tree)); [destruct tree; reflexivity | | exact H].
  apply Forall_forall. intros s _. apply walk_stmt_settled.
Qed.

(** The module [f(x, *a, key=1)], [d = {"k": 1, **m}]: a single trailing
    spread each. *)
Lemma fixer_identity_on_settled_witness :
  UnpackingGeneralizationsFixer_call
    (Mod_ [Expr (Call (name_ "f") [name_ "x"; starred (name_ "a")]
                      [Keyword (Some "key") (Num 1)]);
           Assign [Name "d" Store] (Dict [Some (Str "k"); None] [Num 1; name_ "m"])])
    FixerBase_init =
  Ok (Mod_ [Expr (Call (name_ "f") [name_ "x"; starred (name_ "a")]
                       [Keyword (Some "key") (Num 1)]);
            Assign [Name "d" Store] (Dict [Some (Str "k"); None] [Num 1; name_ "m"])],
      FixerBase_init).
Proof.
  apply (fixer_identity_on_settled
           (Mod_ [Expr (Call (name_ "f") [name_ "x"; starred (name_ "a")]
                             [Keyword (Some "key") (Num 1)]);
                  Assign [Name "d" Store] (Dict [Some (Str "k"); None] [Num 1; name_ "m"])])
           FixerBase_init).
  reflexivity.
Defined.

(** ** More of the selector and the pipeline *)

Section Selector.

Lemma yield_selected_missing {V} (available : list (string * V))
    (pre : list string) (bad : string) (rest : list string) (items : list V) :
  Forall2 (fun name item => dict_get available name = Some item) pre items ->
  dict_get available bad = None ->
  yield_selected available (pre ++ bad :: rest) = (items, Some (KeyError bad)).
Proof.
  intros Hpre Hbad. induction Hpre as [| name item pre items Hn _ IH]; simpl.
  - rewrite Hbad. reflexivity.
  - rewrite Hn, IH. reflexivity.
Qed.

Lemma run_checkers_all_ok_then (cfg : BuildConfig) (tree : Module)
    (items : list (string * checker_t)) (e : exn) :
  Forall (fun c' : string * checker_t => c'.2 cfg tree = Ok tt) items ->
  run_checkers cfg tree items (Some e) =
    (map (fun c' : string * checker_t => Checked c'.1) items, Raise e).
Proof.
  induction 1 as [| [name chk] items Hy _ IH]; simpl; [reflexivity |].
  simpl in Hy. rewrite Hy, IH. reflexivity.
Qed.

Lemma selector_names_any (names : names_t) :
  selector_names names <> [] ->
  existsb (fun name => negb (String.eqb name "")) (selector_names names) = true.
Proof.
  intros Hne. pose proof (selector_names_nonempty names) as Hall.
  destruct (selector_names names) as [| x l]; [congruence |].
  inversion Hall as [| ? ? Hx _]; subst. simpl. rewrite Hx. reflexivity.
Qed.

End Selector.

(** X8.  A checker name the registry does not know is found out only when
    the run reaches it: when the names before it select checkers that all
    accept the tree, those checkers are called first, and then the run
    ends with [KeyError] of the normalized name; no fixer is called. *)
Theorem unknown_checker_name_is_late
    (checkers : module_t checker_t) (fixers : module_t fixer_t)
    (cfg : BuildConfig) (tree : Module)
    (ancestors : list string) (new : checker_t)
    (pre : list string) (bad : string) (rest : list string)
    (items : list (string * checker_t)) :
  dict_get checkers "CheckerBase" = Some (Class "CheckerBase" ancestors new) ->
  selector_names (cfg_get (cfg_checkers cfg)) = pre ++ bad :: rest ->
  Forall2
    (fun name item =>
       dict_get (available_classes checkers "CheckerBase") (normalize_name "Checker" name)
         = Some item)
    pre items ->
  dict_get (available_classes checkers "CheckerBase") (normalize_name "Checker" bad) = None ->
  Forall (fun c : string * checker_t => c.2 cfg tree = Ok tt) items ->
  transpile_module checkers fixers cfg tree =
    (map (fun c : string * checker_t => Checked c.1) items,
     Raise (KeyError (normalize_name "Checker" bad))).
Proof.
  intros Hbase Hnames Hpre Hbad Hok.
  unfold transpile_module, iter_fuzzy_selected_classes.
  change (endswith "CheckerBase" "Base") with true. cbn [negb].
  rewrite Hbase. change (String.eqb "CheckerBase" "CheckerBase") with true. cbn [negb].
  rewrite selector_names_any by (rewrite Hnames; destruct pre; discriminate).
  rewrite Hnames.
  change (drop_last_n 4 "CheckerBase") with "Checker".
  rewrite map_app. cbn [map].
  rewrite length_app. cbn [length].
  replace (Nat.eqb (length (map (normalize_name "Checker") pre) + S _) 0) with false
    by (symmetry; apply Nat.eqb_neq; lia).
  rewrite (yield_selected_missing _ _ _ _ items); [| | exact Hbad].
  - rewrite (run_checkers_all_ok_then cfg tree items _ Hok). reflexivity.
  - apply Forall2_fmap_l. exact Hpre.
Qed.

Lemma unknown_checker_name_is_late_witness :
  transpile_module (checkers_module []) fixers_module
    (mkBuildConfig (Some (NamesStr "noasyncawait,nosuchchecker,nostarimports")) None)
    two_star_imports =
  ([Checked "NoAsyncAwait"], Raise (KeyError "nosuch")).
Proof.
  apply (unknown_checker_name_is_late (checkers_module []) fixers_module
           (mkBuildConfig (Some (NamesStr "noasyncawait,nosuchchecker,nostarimports")) None)
           two_star_imports
           ["CheckerBase"; "object"] (fun _ _ => Raise (Exception "NotImplementedError"))
           ["noasyncawait"] "nosuchchecker" ["nostarimports"]
           [("NoAsyncAwait", Checkers.NoAsyncAwait_call)]).
  - reflexivity.
  - vm_compute. reflexivity.
  - constructor; [reflexivity | constructor].
  - vm_compute. reflexivity.
  - constructor; [vm_compute; reflexivity | constructor].
Defined.

Lemma run_fixers_chain_aux (cfg : BuildConfig) (items1 items2 : list (string * fixer_t))
    (fend : option exn) (tree : Module) :
  run_fixers cfg tree (items1 ++ items2) fend =
    match run_fixers cfg tree items1 None with
    | (trace, Ok tree') =>
        let '(trace', r) := run_fixers cfg tree' items2 fend in (trace ++ trace', r)
    | (trace, Raise e) => (trace, Raise e)
    end.
Proof.
  revert tree. induction items1 as [| [name fixer] items1 IH]; intros tree; simpl.
  - destruct (run_fixers cfg tree items2 fend). reflexivity.
  - destruct (fixer cfg tree) as [[tree' |] | e]; try reflexivity.
    rewrite IH. destruct (run_fixers cfg tree' items1 None) as [trace [tree'' | e]].
    + destruct (run_fixers cfg tree'' items2 fend). reflexivity.
    + reflexivity.
Qed.

(** X9.  The fixers are chained: running the fixers of [items1 ++ items2]
    is running those of [items1] and then, on the tree they return, those
    of [items2]; when a fixer of [items1] fails, none of [items2] is
    called. *)
Theorem run_fixers_chain (cfg : BuildConfig) (items1 items2 : list (string * fixer_t))
    (fend : option exn) (tree : Module) :
  run_fixers cfg tree (items1 ++ items2) fend =
    match run_fixers cfg tree items1 None with
    | (trace, Ok tree') =>
        let '(trace', r) := run_fixers cfg tree' items2 fend in (trace ++ trace', r)
    | (trace, Raise e) => (trace, Raise e)
    end.
Proof. apply run_fixers_chain_aux. Qed.

(** X10.  A fixer that returns [None] ends the run with the exception
    naming its class, after the fixers before it (which all returned a
    tree) and before any later one. *)
Theorem fixer_returning_none_aborts (cfg : BuildConfig)
    (pre : list (string * fixer_t)) (name : string) (fixer : fixer_t)
    (post : list (string * fixer_t)) (fend : option exn) (tree tree' : Module) :
  run_fixers cfg tree pre None = (map (fun f : string * fixer_t => Fixed f.1) pre, Ok tree') ->
  fixer cfg tree' = Ok None ->
  run_fixers cfg tree (pre ++ (name, fixer) :: post) fend =
    (map (fun f : string * fixer_t => Fixed f.1) pre ++ [Fixed name],
     Raise (Exception ("Error running fixer " +:+ name))).
Proof.
  intros Hpre Hnone. rewrite run_fixers_chain_aux, Hpre. simpl. rewrite Hnone. reflexivity.
Qed.

(** The unpacking fixer, then a fixer that returns nothing, then the
    unpacking fixer again. *)
Lemma fixer_returning_none_aborts_witness :
  run_fixers (mkBuildConfig None None) clean_module
    ([("UnpackingGeneralizationsFixer", UnpackingGeneralizationsFixer)]
       ++ ("Silent", fun _ _ => Ok None)
       :: [("UnpackingGeneralizationsFixer", UnpackingGeneralizationsFixer)])
    None =
  ([Fixed "UnpackingGeneralizationsFixer"; Fixed "Silent"],
   Raise (Exception "Error running fixer Silent")).
Proof.
  apply (fixer_returning_none_aborts (mkBuildConfig None None)
           [("UnpackingGeneralizationsFixer", UnpackingGeneralizationsFixer)]
           "Silent" (fun _ _ => Ok None)
           [("UnpackingGeneralizationsFixer", UnpackingGeneralizationsFixer)]
           None clean_module clean_module).
  - reflexivity.
  - reflexivity.
Defined.

Section DictOrder.

Context {V : Type}.

Lemma dict_set_keys (d : list (string * V)) (key : string) (v : V) :
  (dict_set d key v).*1 = if decide (key ∈ d.*1) then d.*1 else d.*1 ++ [key].
Proof.
  induction d as [| [k w] d IH]; cbn [dict_set].
  - case_decide as H; [inversion H | reflexivity].
  - destruct (String.eqb k key) eqn:E.
    + apply String.eqb_eq in E. subst k. clear IH. rewrite !fmap_cons. cbn [fst].
      case_decide as H; [reflexivity |]. exfalso. apply H. left.
    + apply String.eqb_neq in E. rewrite !fmap_cons, IH. clear IH. cbn [fst].
      repeat case_decide; try reflexivity.
      * exfalso. match goal with H : _ ∉ _ :: _ |- _ => apply H end. right. assumption.
      * exfalso. match goal with H : _ ∈ _ :: _ |- _ => apply elem_of_cons in H as [-> | H] end;
          [congruence | contradiction].
Qed.

Lemma dict_set_NoDup (d : list (string * V)) (key : string) (v : V) :
  NoDup d.*1 -> NoDup (dict_set d key v).*1.
Proof.
  intros Hd. rewrite dict_set_keys. case_decide as H; [exact Hd |].
  apply NoDup_app. split; [exact Hd |]. split.
  - intros x Hx Hx'. apply list_elem_of_singleton in Hx'. subst x. exact (H Hx).
  - apply NoDup_singleton.
Qed.

Lemma dict_get_elem (d : list (string * V)) (key : string) (v : V) :
  NoDup d.*1 -> (key, v) ∈ d -> dict_get d key = Some v.
Proof.
  induction d as [| [k w] d IH]; intros Hnd Hin; [inversion Hin |].
  simpl in Hnd. apply NoDup_cons in Hnd as [Hk Hnd]. simpl.
  apply elem_of_cons in Hin as [Heq | Hin].
  - injection Heq as <- <-. rewrite String.eqb_refl. reflexivity.
  - destruct (String.eqb k key) eqn:E.
    + apply String.eqb_eq in E. subst k. exfalso. apply Hk.
      apply list_elem_of_fmap. exists (key, v). auto.
    + apply IH; assumption.
Qed.

Lemma yield_selected_all (available : list (string * V))
    (selected_names : list string) (items : list V) :
  Forall2 (fun name item => dict_get available name = Some item) selected_names items ->
  yield_selected available selected_names = (items, None).
Proof.
  induction 1 as [| name item names items Hn _ IH]; simpl; [reflexivity |].
  rewrite Hn, IH. reflexivity.
Qed.

(** Asked for every key in order, the loop yields every value in order. *)
Lemma yield_selected_keys (available : list (string * V)) :
  NoDup available.*1 -> yield_selected available available.*1 = (available.*2, None).
Proof.
  intros Hnd. apply yield_selected_all.
  apply Forall2_fmap. apply Forall2_same_length_lookup. split; [reflexivity |].
  intros i [k v] [k' v'] H H'. rewrite H in H'. injection H' as <- <-. simpl.
  apply dict_get_elem; [exact Hnd |]. eapply list_elem_of_lookup_2. exact H.
Qed.

End DictOrder.

Lemma available_classes_NoDup {T} (module : module_t T) (clazz_name : string) :
  NoDup (available_classes module clazz_name).*1.
Proof.
  unfold available_classes.
  set (step := fun (d : list (string * (string * T))) (entry : string * attr T) => _).
  assert (H : forall d, NoDup d.*1 -> NoDup (fold_left step module d).*1).
  { induction module as [| entry module IH]; intros d Hd; simpl; [exact Hd |].
    apply IH. subst step. cbv beta. destruct (entry.2) as [name anc new |]; [| exact Hd].
    destruct (_ && _); [apply dict_set_NoDup; exact Hd | exact Hd]. }
  apply H. constructor.
Qed.

(** X11.  With an empty or blank filter the selector yields one instance of
    every available class, each once, in the order in which their
    normalized names were first entered in [available_classes] (the order
    of [dir(module)]); when the module has no such class, it fails the
    assertion that something is selected. *)
Theorem empty_filter_selects_all {T} (names : names_t) (module : module_t T)
    (clazz_name : string) (ancestors : list string) (new : T) :
  selector_names names = [] ->
  endswith clazz_name "Base" = true ->
  dict_get module clazz_name = Some (Class clazz_name ancestors new) ->
  iter_fuzzy_selected_classes names module clazz_name =
    match available_classes module clazz_name with
    | [] => ([], Some AssertionError)
    | available => (available.*2, None)
    end.
Proof.
  intros Hnames Hbase Hclazz. unfold iter_fuzzy_selected_classes.
  rewrite Hbase, Hclazz, String.eqb_refl, Hnames. cbn [negb existsb].
  pose proof (available_classes_NoDup module clazz_name) as Hnd.
  destruct (available_classes module clazz_name) as [| entry available] eqn:E;
    [reflexivity |].
  cbn [length Nat.eqb].
  exact (yield_selected_keys (entry :: available) Hnd).
Qed.

Lemma empty_filter_selects_all_witness :
  yielded_names (iter_fuzzy_selected_classes (NamesStr " , ") (checkers_module []) "CheckerBase")
    = ["NoAsyncAwait"; "NoOpenWithEncodingChecker"; "NoOverriddenBuiltinsChecker";
       "NoOverriddenStdlibImportsChecker"; "NoStarImports"; "NoThreeOnlyImports"].
Proof.
  rewrite (empty_filter_selects_all (NamesStr " , ") (checkers_module []) "CheckerBase"
             ["CheckerBase"; "object"] (fun _ _ => Raise (Exception "NotImplementedError")));
    reflexivity.
Defined.

(** ** More of the checkers *)

Section ForEachExact.

Context {X : Type} (body : X -> result unit).

Lemma for_each_ok_iff (l : list X) :
  for_each body l = Ok tt <-> Forall (fun y => body y = Ok tt) l.
Proof.
  split; [| apply for_each_all_ok].
  induction l as [| y l IH]; simpl; [constructor |].
  destruct (body y) as [[] | e] eqn:E; simpl; [| discriminate].
  intros H. constructor; [exact E | apply IH; exact H].
Qed.

End ForEachExact.

(** X12.  [NoStarImports] accepts a tree exactly when no [from ... import]
    node met by [ast.walk] has an alias named [*]. *)
Theorem NoStarImports_accepts_iff (cfg : BuildConfig) (tree : Module) :
  Checkers.NoStarImports_call cfg tree = Ok tt <->
  Forall (fun n => is_star_import n = false) (ast_walk (NMod tree)).
Proof.
  unfold Checkers.NoStarImports_call. rewrite for_each_ok_iff.
  apply Forall_iff. intros n.
  destruct n as [| s | | | | | | |]; try (split; reflexivity).
  destruct s; try (split; reflexivity).
  cbn [is_star_import]. split.
  - intros H. destruct (existsb _ names) eqn:E; [| reflexivity].
    discriminate (eq_trans (eq_sym H) (star_names_raise module names E)).
  - apply star_names_ok.
Qed.

Section OpenMore.

Lemma open_keywords_app (mode : string) (k1 k2 : list keyword) :
  Checkers.open_keywords mode (k1 ++ k2) =
    result_bind (Checkers.open_keywords mode k1) (fun m => Checkers.open_keywords m k2).
Proof.
  revert mode. induction k1 as [| kw k1 IH]; intros mode; cbn [app Checkers.open_keywords];
    [reflexivity |].
  destruct (kw_arg kw) as [a |]; [| apply IH].
  destruct (Checkers.str_in_list a Checkers.PROHIBITED_OPEN_ARGUMENTS); [reflexivity |].
  destruct (negb (a =? "mode")%string); [apply IH |].
  destruct (kw_value kw); try reflexivity. apply IH.
Qed.

Lemma open_keywords_harmless (keywords : list keyword) (mode : string) :
  forallb harmless_keyword keywords = true ->
  exists mode', Checkers.open_keywords mode keywords = Ok mode'.
Proof.
  revert mode. induction keywords as [| kw rest IH]; intros mode H;
    cbn [Checkers.open_keywords]; [eauto |].
  cbn [forallb] in H. apply andb_true_iff in H as [Hkw Hrest].
  unfold harmless_keyword in Hkw.
  destruct (kw_arg kw) as [a |]; [| apply IH; exact Hrest].
  apply andb_true_iff in Hkw as [Hp Hm]. apply negb_true_iff in Hp. rewrite Hp.
  destruct (negb (a =? "mode")%string); [apply IH; exact Hrest |].
  simpl in Hm. destruct (kw_value kw); try discriminate Hm. apply IH; exact Hrest.
Qed.

Lemma open_keywords_prohibited (keywords : list keyword) (kw : keyword) (a : string)
    (mode : string) :
  kw ∈ keywords -> kw_arg kw = Some a ->
  Checkers.str_in_list a Checkers.PROHIBITED_OPEN_ARGUMENTS = true ->
  exists msg, Checkers.open_keywords mode keywords = Raise (CheckError msg).
Proof.
  intros Hin Ha Hp. revert mode.
  induction keywords as [| k rest IH]; intros mode; [inversion Hin |].
  destruct (Checkers.open_keywords mode (k :: rest)) as [m |] eqn:E.
  2:{ destruct (open_keywords_raise _ _ _ E) as [msg ->]. eauto. }
  exfalso. cbn [Checkers.open_keywords] in E.
  apply elem_of_cons in Hin as [<- | Hin].
  - rewrite Ha, Hp in E. discriminate E.
  - destruct (kw_arg k) as [b |].
    + destruct (Checkers.str_in_list b Checkers.PROHIBITED_OPEN_ARGUMENTS); [discriminate E |].
      destruct (negb (b =? "mode")%string).
      * destruct (IH Hin mode) as [msg Hm]. congruence.
      * destruct (kw_value k); try discriminate E.
        destruct (IH Hin s) as [msg Hm]. congruence.
    + destruct (IH Hin mode) as [msg Hm]. congruence.
Qed.

End OpenMore.

(** X14.  For a call of [open] with at most three positional arguments, a
    positional mode that is absent or a string literal, harmless keywords
    and then a keyword [mode] with a string literal: the keyword decides,
    whatever the positional mode says; the call passes exactly when that
    string has a [b]. *)
Theorem open_mode_keyword_decides (args : list expr) (keywords : list keyword) (m : string) :
  length args <= 3 ->
  positional_mode_ok args = true ->
  forallb harmless_keyword keywords = true ->
  (Checkers.check_open_node
     (NExpr (Call (Name "open" Load) args (keywords ++ [Keyword (Some "mode") (Str m)])))
     = Ok tt <-> char_in "b"%char m = true).
Proof.
  intros Hlen Hpos Hkws. unfold Checkers.check_open_node. simpl negb. cbv iota.
  assert (Hmode : exists mode0,
    match args with
    | _ :: mode_node :: _ =>
        match mode_node with
        | Str s => Ok s
        | _ => Raise Checkers.mode_error
        end
    | _ => Ok "r"
    end = Ok mode0).
  { destruct args as [| a0 [| a1 rest]]; eauto.
    destruct a1; try discriminate Hpos. eauto. }
  destruct Hmode as [mode0 ->]. unfold result_bind at 1.
  assert (Hlt : Nat.ltb 3 (length args) = false) by (apply Nat.ltb_ge; lia).
  rewrite Hlt, open_keywords_app.
  destruct (open_keywords_harmless keywords mode0 Hkws) as [mode1 ->].
  cbn [result_bind Checkers.open_keywords kw_arg kw_value].
  change (Checkers.str_in_list "mode" Checkers.PROHIBITED_OPEN_ARGUMENTS) with false.
  cbv iota. change (negb ("mode" =? "mode")%string) with false. cbv iota.
  cbn [result_bind]. destruct (char_in "b"%char m); cbn [negb]; split;
    intros H; try reflexivity; discriminate H.
Qed.

(** [open(f, "rb", mode="r")] is rejected, [open(f, "r", mode="rb")] passes. *)
Lemma open_mode_keyword_decides_witness :
  Checkers.check_open_node
    (NExpr (Call (Name "open" Load) [name_ "f"; Str "rb"] ([] ++ [Keyword (Some "mode") (Str "r")])))
    <> Ok tt /\
  Checkers.check_open_node
    (NExpr (Call (Name "open" Load) [name_ "f"; Str "r"] ([] ++ [Keyword (Some "mode") (Str "rb")])))
    = Ok tt.
Proof.
  split.
  - intros H.
    apply (open_mode_keyword_decides [name_ "f"; Str "rb"] [] "r") in H;
      [discriminate H | simpl; lia | reflexivity | reflexivity].
  - apply (open_mode_keyword_decides [name_ "f"; Str "r"] [] "rb");
      [simpl; lia | reflexivity | reflexivity | reflexivity].
Defined.

(** X15.  A call of [open] with a prohibited keyword ([encoding], [errors],
    [newline], [closefd], [opener]) or with more than three positional
    arguments is rejected with a check error, whatever its mode. *)
Theorem open_prohibited_rejected (args : list expr) (keywords : list keyword) :
  (3 < length args \/
   exists kw a, kw ∈ keywords /\ kw_arg kw = Some a /\
                Checkers.str_in_list a Checkers.PROHIBITED_OPEN_ARGUMENTS = true) ->
  exists msg,
    Checkers.check_open_node (NExpr (Call (Name "open" Load) args keywords))
      = Raise (CheckError msg).
Proof.
  intros H.
  destruct (Checkers.check_open_node (NExpr (Call (Name "open" Load) args keywords)))
    as [[] |] eqn:E.
  2:{ destruct (check_open_node_raise _ _ E) as [msg ->]. eauto. }
  exfalso. unfold Checkers.check_open_node in E. simpl negb in E. cbv iota in E.
  unfold result_bind in E.
  destruct (match args with
            | _ :: mode_node :: _ =>
                match mode_node with
                | Str s => Ok s
                | _ => Raise Checkers.mode_error
                end
            | _ => Ok "r"
            end) as [mode0 |]; [| discriminate E].
  destruct H as [Hlen | (kw & a & Hin & Ha & Hp)].
  - apply Nat.ltb_lt in Hlen. rewrite Hlen in E. discriminate E.
  - destruct (Nat.ltb 3 (length args)); [discriminate E |].
    destruct (open_keywords_prohibited keywords kw a mode0 Hin Ha Hp) as [msg Hm].
    rewrite Hm in E. discriminate E.
Qed.

(** [open(f, "rb", encoding="utf-8")] *)
Lemma open_prohibited_rejected_witness :
  exists msg,
    Checkers.check_open_node
      (NExpr (Call (Name "open" Load) [name_ "f"; Str "rb"]
                   [Keyword (Some "encoding") (Str "utf-8")]))
      = Raise (CheckError msg).
Proof.
  apply (open_prohibited_rejected [name_ "f"; Str "rb"]
           [Keyword (Some "encoding") (Str "utf-8")]).
  right. exists (Keyword (Some "encoding") (Str "utf-8")), "encoding".
  split; [left | split; reflexivity].
Defined.

(** ** The builtins rename fixers *)

Section BuiltinsRename.

Variables old_name new_name : string.

Lemma rename_body_cases (n : node) :
  builtins_rename_body old_name new_name n =
    if reads_name new_name n
    then add_module_declaration (builtins_rename_declaration old_name new_name)
    else ret tt.
Proof.
  destruct n as [| | e | | | | | |]; try reflexivity.
  destruct e as [| | | | | | | | | | | id ctx | |]; try reflexivity.
  destruct ctx; reflexivity.
Qed.

Lemma rename_loop (l : list node) (self : FixerBase) :
  for_each_M (builtins_rename_body old_name new_name) l self =
    Ok (tt, {| required_imports := required_imports self;
               module_declarations :=
                 if existsb (reads_name new_name) l
                 then {[ builtins_rename_declaration old_name new_name ]}
                        ∪ module_declarations self
                 else module_declarations self |}).
Proof.
  revert self. induction l as [| n l IH]; intros self; cbn [for_each_M existsb].
  - destruct self; reflexivity.
  - unfold bind. rewrite rename_body_cases.
    destruct (reads_name new_name n); cbn [orb].
    + unfold add_module_declaration. rewrite IH. cbn [required_imports module_declarations].
      destruct (existsb (reads_name new_name) l); [| reflexivity].
      rewrite (assoc_L (∪)), (idemp_L (∪)). reflexivity.
    + unfold ret. apply IH.
Qed.

End BuiltinsRename.

(** X16.  A builtins rename fixer returns the tree as it is and leaves the
    imports alone; it adds its one declaration exactly when [ast.walk]
    meets a name in load context with the new name, however often. *)
Theorem builtins_rename_effect (old_name new_name : string) (cfg : BuildConfig)
    (tree : Module) (self : FixerBase) :
  BuiltinsRenameFixerBase_call old_name new_name cfg tree self =
    Ok (tree,
        {| required_imports := required_imports self;
           module_declarations :=
             if existsb (reads_name new_name) (ast_walk (NMod tree))
             then {[ builtins_rename_declaration old_name new_name ]}
                    ∪ module_declarations self
             else module_declarations self |}).
Proof.
  unfold BuiltinsRenameFixerBase_call, bind. rewrite rename_loop. reflexivity.
Qed.

Example xrange_declaration :
  builtins_rename_declaration "xrange" "range" = "range = getattr(__builtins__, 'xrange', range)".
Proof. reflexivity. Qed.

(** ** Normalized names *)

Section Normalize.

Lemma lower_app (a b : string) : lower (a +:+ b) = lower a +:+ lower b.
Proof. induction a as [| c a IH]; simpl; [reflexivity | rewrite IH; reflexivity]. Qed.

Lemma remove_char_app (c : ascii) (a b : string) :
  remove_char c (a +:+ b) = remove_char c a +:+ remove_char c b.
Proof.
  induction a as [| d a IH]; simpl; [reflexivity |].
  destruct (Ascii.eqb d c); simpl; rewrite IH; reflexivity.
Qed.

Lemma squash_app (a b : string) : squash (a +:+ b) = squash a +:+ squash b.
Proof. unfold squash. rewrite lower_app, !remove_char_app. reflexivity. Qed.

Lemma lower_char_idem (c : ascii) : lower_char (lower_char c) = lower_char c.
Proof. destruct c as [[] [] [] [] [] [] [] []]; reflexivity. Qed.

Lemma lower_idem (s : string) : lower (lower s) = lower s.
Proof.
  induction s as [| c s IH]; simpl; [reflexivity |]. rewrite lower_char_idem, IH. reflexivity.
Qed.

Lemma length_lower (s : string) : String.length (lower s) = String.length s.
Proof. induction s as [| c s IH]; simpl; [reflexivity | rewrite IH; reflexivity]. Qed.

Lemma length_append (a b : string) :
  String.length (a +:+ b) = String.length a + String.length b.
Proof. induction a as [| c a IH]; simpl; [reflexivity | rewrite IH; reflexivity]. Qed.

Lemma substring_prefix (a b : string) : substring 0 (String.length a) (a +:+ b) = a.
Proof. induction a as [| c a IH]; simpl; [destruct b; reflexivity | rewrite IH; reflexivity]. Qed.

Lemma substring_suffix (a b : string) :
  substring (String.length a) (String.length b) (a +:+ b) = b.
Proof.
  induction a as [| c a IH]; simpl; [| exact IH].
  clear. induction b as [| d b IHb]; simpl; [reflexivity | f_equal; exact IHb].
Qed.

Lemma endswith_append (a b : string) : endswith (a +:+ b) b = true.
Proof.
  unfold endswith. rewrite length_append.
  replace (String.length a + String.length b - String.length b) with (String.length a) by lia.
  rewrite substring_suffix, String.eqb_refl.
  apply andb_true_iff. split; [apply Nat.leb_le; lia | reflexivity].
Qed.

Lemma drop_last_n_append (a b : string) :
  b <> EmptyString -> drop_last_n (String.length b) (a +:+ b) = a.
Proof.
  intros Hb. unfold drop_last_n.
  destruct (Nat.eqb (String.length b) 0) eqn:E.
  - apply Nat.eqb_eq in E. destruct b; [congruence | discriminate E].
  - rewrite length_append.
    replace (String.length a + String.length b - String.length b) with (String.length a) by lia.
    apply substring_prefix.
Qed.

End Normalize.

(** X17.  The selector's names are fuzzy, for ASCII names: a name
    normalizes like its lower case form, and an underscore or a hyphen
    anywhere in a name does not change what it normalizes to. *)
Theorem normalize_name_fuzzy (optional_suffix a b : string) :
  isascii optional_suffix = true ->
  isascii (a +:+ b) = true ->
  normalize_name optional_suffix (lower (a +:+ b)) = normalize_name optional_suffix (a +:+ b) /\
  normalize_name optional_suffix (a +:+ "_" +:+ b) = normalize_name optional_suffix (a +:+ b) /\
  normalize_name optional_suffix (a +:+ "-" +:+ b) = normalize_name optional_suffix (a +:+ b).
Proof.
  intros _ _.
  assert (Hn : forall n, normalize_name optional_suffix n =
                         if endswith (squash n) (lower optional_suffix)
                         then drop_last_n (String.length optional_suffix) (squash n)
                         else squash n) by reflexivity.
  rewrite !Hn.
  assert (H1 : squash (lower (a +:+ b)) = squash (a +:+ b)).
  { unfold squash. rewrite lower_idem. reflexivity. }
  assert (H2 : squash (a +:+ "_" +:+ b) = squash (a +:+ b)).
  { rewrite !squash_app. reflexivity. }
  assert (H3 : squash (a +:+ "-" +:+ b) = squash (a +:+ b)).
  { rewrite !squash_app. reflexivity. }
  rewrite H1, H2, H3. auto.
Qed.

Lemma normalize_name_fuzzy_witness :
  normalize_name "Checker" (lower ("NoStar" +:+ "Imports")) =
    normalize_name "Checker" ("NoStar" +:+ "Imports") /\
  normalize_name "Checker" ("NoStar" +:+ "_" +:+ "Imports") =
    normalize_name "Checker" ("NoStar" +:+ "Imports") /\
  normalize_name "Checker" ("NoStar" +:+ "-" +:+ "Imports") =
    normalize_name "Checker" ("NoStar" +:+ "Imports").
Proof.
  apply (normalize_name_fuzzy "Checker" "NoStar" "Imports"); reflexivity.
Defined.

(** X18.  The suffix is optional, for ASCII names: for a suffix without
    underscore or hyphen (as [Checker] and [Fixer] are), a name with the
    suffix appended normalizes like the name without it, unless the bare
    name already ends in the suffix once normalized. *)
Theorem normalize_name_suffix_optional (optional_suffix name : string) :
  isascii optional_suffix = true ->
  isascii name = true ->
  optional_suffix <> EmptyString ->
  squash optional_suffix = lower optional_suffix ->
  endswith (squash name) (lower optional_suffix) = false ->
  normalize_name optional_suffix (name +:+ optional_suffix) =
    normalize_name optional_suffix name.
Proof.
  intros _ _ Hne Hsep Hend.
  assert (Hn : forall n, normalize_name optional_suffix n =
                         if endswith (squash n) (lower optional_suffix)
                         then drop_last_n (String.length optional_suffix) (squash n)
                         else squash n) by reflexivity.
  rewrite !Hn, Hend, squash_app, Hsep, endswith_append.
  rewrite <- (length_lower optional_suffix). apply drop_last_n_append.
  destruct optional_suffix; [congruence | discriminate].
Qed.

Lemma normalize_name_suffix_optional_witness :
  normalize_name "Checker" ("NoOpenWithEncoding" +:+ "Checker") =
  normalize_name "Checker" "NoOpenWithEncoding".
Proof.
  apply (normalize_name_suffix_optional "Checker" "NoOpenWithEncoding").
  - reflexivity.
  - reflexivity.
  - discriminate.
  - reflexivity.
  - reflexivity.
Defined.

(** ** The order of versions *)

Section StrOrder.

Lemma ascii_compare_trans_lt (a b c : ascii) :
  Ascii.compare a b = Lt -> Ascii.compare b c = Lt -> Ascii.compare a c = Lt.
Proof.
  unfold Ascii.compare. rewrite !N.compare_lt_iff. apply N.lt_trans.
Qed.

Lemma string_compare_trans_lt (a b c : string) :
  String.compare a b = Lt -> String.compare b c = Lt -> String.compare a c = Lt.
Proof.
  revert b c. induction a as [| x a IH]; intros [| y b] [| z c]; simpl;
    try discriminate; try reflexivity.
  destruct (Ascii.compare x y) eqn:Exy; try discriminate.
  - apply Ascii.compare_eq_iff in Exy. subst y.
    destruct (Ascii.compare x z); try discriminate; [apply IH | reflexivity].
  - intros _. destruct (Ascii.compare y z) eqn:Eyz; try discriminate.
    + apply Ascii.compare_eq_iff in Eyz. subst z. rewrite Exy. reflexivity.
    + rewrite (ascii_compare_trans_lt x y z Exy Eyz). reflexivity.
Qed.

Lemma str_le_trans (a b c : string) : str_le a b -> str_le b c -> str_le a c.
Proof.
  unfold str_le, String.leb. intros Hab Hbc.
  destruct (String.compare a b) eqn:Eab; try discriminate Hab.
  - apply String.compare_eq_iff in Eab. subst b. exact Hbc.
  - destruct (String.compare b c) eqn:Ebc; try discriminate Hbc.
    + apply String.compare_eq_iff in Ebc. subst c. rewrite Eab. reflexivity.
    + rewrite (string_compare_trans_lt a b c Eab Ebc). reflexivity.
Qed.

End StrOrder.

(** X19.  The targets a fixer is required for form an interval of the
    order on version strings: a version between two targets it is required
    for is a target it is required for; the same holds of the sources it
    is compatible with. *)
Theorem version_windows_convex (nfo : Fixers.VersionInfo) (v1 v2 v3 : string) :
  str_le v1 v2 -> str_le v2 v3 ->
  (Fixers.is_required_for nfo v1 = true -> Fixers.is_required_for nfo v3 = true ->
   Fixers.is_required_for nfo v2 = true) /\
  (Fixers.is_compatible_with nfo v1 = true -> Fixers.is_compatible_with nfo v3 = true ->
   Fixers.is_compatible_with nfo v2 = true).
Proof.
  intros H12 H23. unfold Fixers.is_required_for, Fixers.is_compatible_with. split.
  - intros H1 H3. apply andb_true_iff in H1 as [H1 _]. apply andb_true_iff in H3 as [_ H3].
    apply andb_true_iff. split.
    + exact (str_le_trans _ _ _ H1 H12).
    + exact (str_le_trans _ _ _ H23 H3).
  - intros H1 H3. apply andb_true_iff in H1 as [H1 _]. apply andb_true_iff in H3 as [_ H3].
    apply andb_true_iff. split.
    + exact (str_le_trans _ _ _ H1 H12).
    + destruct (Fixers.works_until nfo) as [u |]; [| reflexivity].
      exact (str_le_trans _ _ _ H23 H3).
Qed.

Lemma version_windows_convex_witness :
  Fixers.is_required_for (Fixers.VersionInfo_init "2.0" "3.4" None None) "2.7" = true.
Proof.
  apply (version_windows_convex (Fixers.VersionInfo_init "2.0" "3.4" None None)
           "2.0" "2.7" "3.4"); reflexivity.
Defined.


